(** * types-registry publisher: [src/publish-registry.ts]

    A shallow embedding of the registry publisher and of the bounded
    concurrent mapper it drives, together with the properties stated for
    them.

    Asynchronous functions are embedded in a small state-and-rejection
    monad over a world that records the calls made to the external
    collaborators.  The bounded mapper is a step relation on a pool of
    cooperative workers, with an executable driver that follows a
    schedule. *)

From stdpp Require Import base option list relations gmap strings pretty.

(** ** Settled promises *)

(** The two ways an awaited promise settles. *)
Inductive outcome (E A : Type) : Type :=
| Resolved (a : A)
| Rejected (e : E).
Arguments Resolved {E A} a.
Arguments Rejected {E A} e.

(** ** The bounded concurrent mapper ([nAtATime] of [util/util]) *)

Section Mapper.
Context {T U E St : Type}.

(** The transform handed to the mapper, split at its suspension point:
    [invoke] is what runs synchronously when the transform is called,
    [settle] is what runs when the awaited operation comes back. Both act
    on the store [St] the transform shares with its caller. *)
Record transform : Type := {
  invoke : T → St → St;
  settle : T → St → outcome E U * St
}.

(** The optional progress configuration: a label and a per-item
    description. *)
Record ProgressConfig (O : Type) : Type := {
  progress_name : string;
  flavor : T → string;
  progress_options : O
}.

Inductive worker : Type :=
| Ready
| Awaiting (i : nat)
| Finished
| Failed (e : E).

Record pool : Type := {
  nextIndex : nat;
  results : list (option U);
  workers : list worker;
  shared : St;
  invoked : list nat;
  failure : option E;
  display : list (string * string)
}.

Definition is_awaiting (w : worker) : bool :=
  match w with Awaiting _ => true | _ => false end.

Definition is_live (w : worker) : bool :=
  match w with Ready | Awaiting _ => true | _ => false end.

(** Number of transform invocations that are in flight. *)
Definition pending (p : pool) : nat :=
  length (filter (λ w, is_awaiting w = true) (workers p)).

Section Run.
Context {O : Type}.
Variable L : nat.
Variable inputs : list T.
Variable use : transform.
Variable progress : option (ProgressConfig O).

(** Modelled from the spec: [nAtATime] of [util/util] is not part of the
    sources at hand. A shared cursor starts at 0, exactly [min L M]
    workers are launched, and the output has one slot per input. *)
Definition init (s : St) : pool :=
  {| nextIndex := 0;
     results := replicate (length inputs) None;
     workers := replicate (L `min` length inputs) Ready;
     shared := s;
     invoked := [];
     failure := None;
     display := [] |}.

Definition status (x : T) : list (string * string) :=
  match progress with
  | Some c => [(progress_name _ c, flavor _ c x)]
  | None => []
  end.

(** Modelled from the spec: one cooperative step of worker [w]. A ready
    worker claims the next unclaimed index (read cursor, increment,
    call the transform) or stops when none remains; a worker whose
    awaited transform settles stores the result at the claimed index
    and is ready again, or fails with the transform's rejection. The
    first rejection is the one the overall operation rejects with. *)
Definition fire (w : nat) (p : pool) : option pool :=
  match workers p !! w with
  | Some Ready =>
      match inputs !! nextIndex p with
      | Some x =>
          Some {| nextIndex := S (nextIndex p);
                  results := results p;
                  workers := <[w := Awaiting (nextIndex p)]> (workers p);
                  shared := invoke use x (shared p);
                  invoked := invoked p ++ [nextIndex p];
                  failure := failure p;
                  display := display p ++ status x |}
      | None =>
          Some {| nextIndex := nextIndex p;
                  results := results p;
                  workers := <[w := Finished]> (workers p);
                  shared := shared p;
                  invoked := invoked p;
                  failure := failure p;
                  display := display p |}
      end
  | Some (Awaiting i) =>
      match inputs !! i with
      | Some x =>
          match settle use x (shared p) with
          | (Resolved u, s') =>
              Some {| nextIndex := nextIndex p;
                      results := <[i := Some u]> (results p);
                      workers := <[w := Ready]> (workers p);
                      shared := s';
                      invoked := invoked p;
                      failure := failure p;
                      display := display p |}
          | (Rejected e, s') =>
              Some {| nextIndex := nextIndex p;
                      results := results p;
                      workers := <[w := Failed e]> (workers p);
                      shared := s';
                      invoked := invoked p;
                      failure := match failure p with
                                 | Some e0 => Some e0
                                 | None => Some e
                                 end;
                      display := display p |}
          end
      | None => None
      end
  | _ => None
  end.

(** Any worker that can move may be the next one to move. *)
Definition step (p p' : pool) : Prop := ∃ w, fire w p = Some p'.

Definition reachable (s : St) (p : pool) : Prop := rtc step (init s) p.

(** No worker can move. *)
Definition quiescent (p : pool) : Prop := ∀ w, fire w p = None.

(** How the overall operation has settled, if it has: rejected with the
    first rejection, resolved with the output once every worker has
    stopped. *)
Definition settled (p : pool) : option (outcome E (list (option U))) :=
  match failure p with
  | Some e => Some (Rejected e)
  | None =>
      if forallb (λ w, match w with Finished => true | _ => false end)
           (workers p)
      then Some (Resolved (results p))
      else None
  end.

(** Workers that can move, by position. *)
Definition enabled (p : pool) : list nat :=
  filter (λ w, is_live <$> workers p !! w = Some true)
         (seq 0 (length (workers p))).

Definition choose (c : nat) (p : pool) : option nat :=
  enabled p !! (c `mod` length (enabled p)).

(** Modelled from the spec: the run of the workers of [nAtATime], which is
    not part of the sources at hand. The schedule picks, at each step,
    which of the enabled workers moves. The caller is resumed as soon as
    the operation has rejected or no worker is left. *)
Fixpoint drive (fuel : nat) (sched : list nat) (p : pool) : pool :=
  match fuel with
  | 0 => p
  | S k =>
      match failure p with
      | Some _ => p
      | None =>
          match choose (hd 0 sched) p ≫= (λ w, fire w p) with
          | Some p' => drive k (tl sched) p'
          | None => p
          end
      end
  end.

Definition fuel_bound : nat := 3 * length inputs + 1.

(** Modelled from the spec: [nAtATime(n, inputs, use, progressOptions)] of
    [util/util], which is not part of the sources at hand. It resolves with
    the output collection once all workers have finished and rejects with
    the first rejection of a transform. *)
Definition nAtATime (sched : list nat) (s : St)
  : outcome E (list (option U)) * St :=
  let p := drive fuel_bound sched (init s) in
  (match failure p with
   | Some e => Rejected e
   | None => Resolved (results p)
   end, shared p).

(** What holds of every pool the mapper can be in. *)
Record inv (p : pool) : Prop := {
  inv_cursor : nextIndex p ≤ length inputs;
  inv_slots : length (results p) = length inputs;
  inv_invoked : invoked p = seq 0 (nextIndex p);
  inv_workers : length (workers p) = L `min` length inputs;
  inv_claimed : ∀ w i, workers p !! w = Some (Awaiting i) → i < nextIndex p;
  inv_distinct : ∀ w1 w2 i,
    workers p !! w1 = Some (Awaiting i) →
    workers p !! w2 = Some (Awaiting i) → w1 = w2;
  inv_finished : ∀ w,
    workers p !! w = Some Finished → nextIndex p = length inputs;
  inv_failed : ∀ w e,
    workers p !! w = Some (Failed e) → failure p ≠ None;
  inv_rejected : ∀ e,
    failure p = Some e →
    ∃ i x s, inputs !! i = Some x ∧ (settle use x s).1 = Rejected e;
  inv_stored : ∀ i,
    failure p = None → i < nextIndex p →
    (∃ w, workers p !! w = Some (Awaiting i)) ∨
    (∃ x u s, inputs !! i = Some x ∧ results p !! i = Some (Some u) ∧
              (settle use x s).1 = Resolved u)
}.

(** Work left in a pool: two moves per unclaimed item, two for a worker
    that awaits (store, then stop or claim), one for a ready worker. *)
Definition weight (w : worker) : nat :=
  match w with Ready => 1 | Awaiting _ => 2 | _ => 0 end.

Definition work_left (p : pool) : nat :=
  2 * (length inputs - nextIndex p) + sum_list (weight <$> workers p).

End Run.
End Mapper.

(** ** Data of the publisher *)

(** What the publisher reads of a typings package: the key it is listed
    under and the escaped name it is looked up by. *)
Record TypingsData : Type := {
  name : string;
  fullEscapedNpmName : string
}.

(** [interface Registry { entries: Entries }], where [Entries] maps a
    package name to its [Versions], a partial map from version tag to
    version. *)
Record Registry : Type := {
  entries : gmap string (gmap string string)
}.

Record Repository : Type := {
  repository_type : string;
  repository_url : string
}.

(** The object literal built by [generatePackageJson]. *)
Record PackageJson : Type := {
  package_name : string;
  version : string;
  description : string;
  repository : Repository;
  keywords : list string;
  author : string;
  license : string
}.

(** What [writeOutputFile] is given as [content]. *)
Inductive content : Type :=
| Manifest (p : PackageJson)
| Index (r : Registry)
| Text (s : string).

(** Calls made to the external collaborators, in the order they are made. *)
Inductive event : Type :=
| ReadAdditions
| ReadTypings
| FetchLastPatchNumber (pkg : string)
| ClearOutputPath (path : string)
| WriteJson (path : string) (c : content)
| FetchJson (uri : string) (retries : bool)
| NpmClientCreate
| ClientPublish (dir : string) (p : PackageJson) (dry : bool)
| WriteLog (file : string) (lines : list string).

(** The world a run acts on: the calls made so far and the messages the
    run's logger has collected. *)
Record World : Type := {
  trace : list event;
  logged : list string
}.

Definition emit (e : event) (w : World) : World :=
  {| trace := trace w ++ [e]; logged := logged w |}.

Definition start : World := {| trace := []; logged := [] |}.

(** The external collaborators and settings of [./lib] and [./util], given
    by how each call settles. The last patch number of a package is an
    integer. [schedule] is the order in which the pending registry lookups
    come back. [JSON_stringify] and [number_digits] stand
    for two built-ins that are not spelled out here: [JSON.stringify] on a
    list of strings, and the digits a number beyond [2^53] is printed
    with. *)
Record Env (Err Options : Type) : Type := {
  npmRegistry : string;
  outputPath : string;
  joinPaths : string → string → string;
  allVersionTags : list string;
  JSON_stringify : list string → string;
  number_digits : Z → string;
  Options_defaults : Options;
  additions : outcome Err (list string);
  typings_read : outcome Err (list TypingsData);
  last_patch : string → outcome Err Z;
  cleared : string → list string * outcome Err unit;
  written : string → content → outcome Err unit;
  fetched : string → outcome Err (gmap string (gmap string string));
  client_created : outcome Err unit;
  published : string → PackageJson → bool → outcome Err unit;
  log_written : string → list string → outcome Err unit;
  schedule : list nat
}.
Arguments npmRegistry {Err Options} _.
Arguments outputPath {Err Options} _.
Arguments joinPaths {Err Options} _ _ _.
Arguments allVersionTags {Err Options} _.
Arguments JSON_stringify {Err Options} _ _.
Arguments number_digits {Err Options} _ _.
Arguments Options_defaults {Err Options} _.
Arguments additions {Err Options} _.
Arguments typings_read {Err Options} _.
Arguments last_patch {Err Options} _ _.
Arguments cleared {Err Options} _ _.
Arguments written {Err Options} _ _ _.
Arguments fetched {Err Options} _ _.
Arguments client_created {Err Options} _.
Arguments published {Err Options} _ _ _ _.
Arguments log_written {Err Options} _ _ _.
Arguments schedule {Err Options} _.

(** ** Objects and numbers *)

(** A plain object, as an object literal or [JSON.parse] makes it, is the
    finite map of its own properties; these are what [for ... in],
    [JSON.stringify] and a read of an own key see.

    [obj[key] = v] on such an object adds or overwrites the own property
    [key], for every key but ["__proto__"]: that one is the accessor
    inherited from [Object.prototype], and an assignment through it adds no
    own property (it sets the prototype when [v] is an object, and does
    nothing otherwise). *)
Definition js_set {V : Type} (key : string) (v : V) (obj : gmap string V)
  : gmap string V :=
  if bool_decide (key = "__proto__") then obj else <[key := v]> obj.

(** A number is a double. The integers among the doubles are modelled by
    [Z]: a double holds every integer up to [2^53] in magnitude, and beyond
    that the multiples of a power of two; [round_double] is the integer
    double nearest to an integer, ties going to the even mantissa. *)
Definition round_double (z : Z) : Z :=
  let a := Z.abs z in
  if bool_decide (a < 2 ^ 53)%Z then z
  else
    let e := (Z.log2 a - 52)%Z in
    let q := (a / 2 ^ e)%Z in
    let r := (a `mod` 2 ^ e)%Z in
    let up := bool_decide (2 ^ e < 2 * r)%Z
              || (bool_decide (2 * r = 2 ^ e)%Z && Z.odd q) in
    (Z.sgn z * (if up then (q + 1) * 2 ^ e else q * 2 ^ e))%Z.

(** [a + b] on numbers: the sum, rounded. *)
Definition number_add (a b : Z) : Z := round_double (a + b).

(** ** [pick] *)

(** [for (const key in obj) if (keys.includes(key)) out[key] = obj[key]],
    on a plain object [obj] and starting from an empty [out]. What is
    returned is given by its own properties; those are all there is to it
    unless [obj] has a listed property ["__proto__"] that holds an object,
    which is then made the prototype of what is returned. *)
Definition pick {V : Type} (obj : gmap string V) (keys : list string)
  : gmap string V :=
  foldl (λ out kv, if bool_decide (kv.1 ∈ keys) then js_set kv.1 kv.2 out
                   else out)
        ∅ (map_to_list obj).

(** [info["dist-tags"]], as [for ... in] walks it: a missing property is
    [undefined], which is walked as an empty object. *)
Definition dist_tags (info : gmap string (gmap string string))
  : gmap string string :=
  default ∅ (info !! "dist-tags").

(** ** The asynchronous functions *)

Section Publisher.
Context {Err Options : Type}.
Variable env : Env Err Options.

(** An [async] function: it acts on the world and resolves or rejects. *)
Definition M (A : Type) : Type := World → outcome Err A * World.

Definition ret {A} (a : A) : M A := λ w, (Resolved a, w).

(** [await]: a rejection is rethrown to the caller, nothing after it
    runs. *)
Definition bind {A B} (m : M A) (k : A → M B) : M B :=
  λ w, match m w with
       | (Resolved a, w') => k a w'
       | (Rejected e, w') => (Rejected e, w')
       end.

Notation "x <~ m ;; k" := (bind m (λ x, k))
  (at level 100, m at next level, right associativity).
Notation "m ;;; k" := (bind m (λ _, k))
  (at level 100, right associativity).

(** A call to a collaborator: recorded, then settled as [env] says. *)
Definition call {A} (e : event) (r : outcome Err A) : M A :=
  λ w, (r, emit e w).

(** Modelled from the spec: the logger of [logger()] of [util/logging],
    which is not part of the sources at hand. [log] collects a message,
    [logResult] returns the messages collected since the start of the
    run. *)
Definition log (msg : string) : M unit :=
  λ w, (Resolved (), {| trace := trace w; logged := logged w ++ [msg] |}).

Definition logResult : M (list string) := λ w, (Resolved (logged w), w).

Definition readAdditions : M (list string) :=
  call ReadAdditions (additions env).

Definition readTypings : M (list TypingsData) :=
  call ReadTypings (typings_read env).

Definition fetchLastPatchNumber (pkg : string) : M Z :=
  call (FetchLastPatchNumber pkg) (last_patch env pkg).

(** [clearOutputPath(path, log)] is handed the logger and may log. *)
Definition clearOutputPath (path : string) : M unit :=
  λ w, ((cleared env path).2,
        {| trace := trace w ++ [ClearOutputPath path];
           logged := logged w ++ (cleared env path).1 |}).

Definition writeJson (path : string) (c : content) : M unit :=
  call (WriteJson path c) (written env path c).

Definition writeLog (file : string) (lines : list string) : M unit :=
  call (WriteLog file lines) (log_written env file lines).

Definition packageName : string := "types-registry".

Definition registryOutputPath : string :=
  joinPaths env (outputPath env) packageName.

Definition readme : string :=
"This package contains a listing of all packages published to the @types scope on NPM.
Generated by [types-publisher](https://github.com/Microsoft/types-publisher).".

(** [`${patch}`]: an integer up to [2^53] in magnitude is printed with all
    its decimal digits; beyond that a number is printed with the fewest
    digits that tell it from its neighbours. *)
Definition number_to_string (n : Z) : string :=
  if bool_decide (Z.abs n ≤ 2 ^ 53)%Z then pretty n else number_digits env n.

Definition generatePackageJson (patch : Z) : PackageJson :=
  {| package_name := packageName;
     version := "0.1." ++ number_to_string patch;
     description := "A registry of TypeScript declaration file packages published within the @types scope.";
     repository :=
       {| repository_type := "git";
          repository_url := "https://github.com/Microsoft/types-publisher.git" |};
     keywords := ["TypeScript"; "declaration"; "files"; "types"; "packages"];
     author := "Microsoft Corp.";
     license := "Apache-2.0" |}.

(** [getVersions], up to its [await]: the lookup it issues. *)
Definition getVersions_uri (escapedPackageName : string) : string :=
  npmRegistry env ++ escapedPackageName.

(** [getVersions], from its [await] on: a failed lookup is rethrown,
    otherwise the [dist-tags] of the answer are picked. *)
Definition getVersions_settle (escapedPackageName : string)
  : outcome Err (gmap string string) :=
  match fetched env (getVersions_uri escapedPackageName) with
  | Rejected e => Rejected e
  | Resolved info =>
      Resolved (pick (dist_tags info) (allVersionTags env))
  end.

(** [addEntry], as the transform the mapper runs: calling it issues the
    lookup, and when the lookup is back [entries[typing.name] = versions]
    is run on the object [entries]. *)
Definition addEntry
  : @transform TypingsData unit Err (World * gmap string (gmap string string)) :=
  {| invoke typing s :=
       (emit (FetchJson (getVersions_uri (fullEscapedNpmName typing)) true) s.1,
        s.2);
     settle typing s :=
       match getVersions_settle (fullEscapedNpmName typing) with
       | Rejected e => (Rejected e, s)
       | Resolved versions =>
           (Resolved (), (s.1, js_set (name typing) versions s.2))
       end |}.

Definition registryProgress (options : Options)
  : @ProgressConfig TypingsData Options :=
  {| progress_name := "Generating registry...";
     flavor := name;
     progress_options := options |}.

Definition generateRegistry (typings : list TypingsData) (options : Options)
  : M Registry :=
  λ w,
    match nAtATime 25 typings addEntry (Some (registryProgress options))
            (schedule env) (w, ∅) with
    | (Resolved _, (w', entries)) => (Resolved {| entries := entries |}, w')
    | (Rejected e, (w', _)) => (Rejected e, w')
    end.

Definition writeOutputFile (filename : string) (c : content) : M unit :=
  writeJson (joinPaths env registryOutputPath filename) c.

Definition generate (typings : list TypingsData) (packageJson : PackageJson)
    (options : Options) : M unit :=
  clearOutputPath registryOutputPath ;;;
  writeOutputFile "package.json" (Manifest packageJson) ;;;
  registry <~ generateRegistry typings options ;;
  writeOutputFile "index.json" (Index registry) ;;;
  writeOutputFile "README.md" (Text readme).

Definition publish (packageJson : PackageJson) (dry : bool) : M unit :=
  call NpmClientCreate (client_created env) ;;;
  call (ClientPublish registryOutputPath packageJson dry)
       (published env registryOutputPath packageJson dry).

Definition generateAndPublishRegistry (options : Options) (dry : bool)
  : M unit :=
  typings <~ readTypings ;;
  last <~ fetchLastPatchNumber packageName ;;
  let packageJson := generatePackageJson (number_add last 1) in
  generate typings packageJson options ;;;
  publish packageJson dry.

Definition main (dry : bool) : M unit :=
  log "=== Publishing types-registry ===" ;;;
  added <~ readAdditions ;;
  (if negb (length added =? 0)
   then
     log ("New packages have been added: " ++ JSON_stringify env added
          ++ ", so publishing a new registry") ;;;
     generateAndPublishRegistry (Options_defaults env) dry
   else
     log "No new packages published, so no need to publish new registry.") ;;;
  lines <~ logResult ;;
  writeLog "publish-registry.md" lines.

End Publisher.

Arguments round_double : simpl never.
Arguments number_add : simpl never.
Arguments number_to_string : simpl never.

(** ** Reading a run *)

Definition is_output_write (e : event) : bool :=
  match e with
  | ClearOutputPath _ | WriteJson _ _ => true
  | _ => false
  end.

Section Registry.
Context {Err Options : Type}.
Variable env : Env Err Options.

(** The registry lookups issued for a list of typings, in order. *)
Definition lookup_events (typings : list TypingsData) : list event :=
  (λ t, FetchJson (getVersions_uri env (fullEscapedNpmName t)) true)
    <$> typings.

(** What holds of the store shared by [addEntry] and [generateRegistry]
    while the mapper runs from the world [w0]: the lookups issued are those
    of the items claimed, and [entries] holds what the lookups that are back
    have put there. *)
Record registry_inv (w0 : World) (typings : list TypingsData)
    (p : @pool unit Err (World * gmap string (gmap string string))) : Prop := {
  reg_trace :
    trace (shared p).1 = trace w0 ++ lookup_events (take (nextIndex p) typings);
  reg_logged : logged (shared p).1 = logged w0;
  reg_sound : ∀ k v,
    (shared p).2 !! k = Some v →
    ∃ i t, typings !! i = Some t ∧ name t = k ∧
           getVersions_settle env (fullEscapedNpmName t) = Resolved v ∧
           results p !! i = Some (Some ());
  reg_complete : ∀ i t,
    typings !! i = Some t → results p !! i = Some (Some ()) →
    name t ≠ "__proto__" →
    is_Some ((shared p).2 !! name t);
  reg_proto : (shared p).2 !! "__proto__" = None
}.

(** The lookup of [t] came back with [info]. *)
Definition looked_up (t : TypingsData)
    (info : gmap string (gmap string string)) : Prop :=
  fetched env (getVersions_uri env (fullEscapedNpmName t)) = Resolved info.

(** [v] is [obj] restricted to the keys in [tags]: the listed keys are kept
    with their values, every other key is dropped; and so is the key
    ["__proto__"], which an assignment never makes a property. *)
Definition restricted (tags : list string) (obj v : gmap string string)
  : Prop :=
  ∀ tag, v !! tag = if bool_decide (tag ∈ tags ∧ tag ≠ "__proto__")
                    then obj !! tag else None.

(** [reg] lists [typings]: its keys are the names of the typings, but for
    the name ["__proto__"], which is never a key; what is listed under a
    name is the restricted [dist-tags] looked up for a typing of that name;
    and when no two typings share a name, every typing whose name is not
    ["__proto__"] is listed under its name with its own restricted
    [dist-tags]. *)
Definition lists (typings : list TypingsData) (reg : Registry) : Prop :=
  (∀ k, is_Some (entries reg !! k) ↔
        k ≠ "__proto__" ∧ ∃ t, t ∈ typings ∧ name t = k) ∧
  (∀ k v, entries reg !! k = Some v →
     ∃ t info, t ∈ typings ∧ name t = k ∧ looked_up t info ∧
       restricted (allVersionTags env) (dist_tags info) v) ∧
  (NoDup (name <$> typings) →
   ∀ t info, t ∈ typings → name t ≠ "__proto__" → looked_up t info →
     ∃ v, entries reg !! name t = Some v ∧
          restricted (allVersionTags env) (dist_tags info) v).

(** The pool [generateRegistry] is resumed with. *)
Definition final_pool (typings : list TypingsData) (options : Options)
    (w0 : World)
  : @pool unit Err (World * gmap string (gmap string string)) :=
  drive typings (addEntry env) (Some (registryProgress options))
    (fuel_bound typings) (schedule env) (init 25 typings (w0, ∅)).

End Registry.

(** The calls of a trace that clear the output path or write one of the
    files of the package. *)
Definition output_writes (tr : list event) : list event :=
  filter is_output_write tr.

Definition is_publish (e : event) : bool :=
  match e with
  | ClientPublish _ _ _ => true
  | _ => false
  end.

(** The manifest an event carries, if it carries one. *)
Definition manifest_of (e : event) : option PackageJson :=
  match e with
  | WriteJson _ (Manifest p) => Some p
  | ClientPublish _ p _ => Some p
  | _ => None
  end.

Section Worlds.
Context {Err Options : Type}.
Variable env : Env Err Options.

(** The world in which [main] calls [generateAndPublishRegistry]. *)
Definition announced (added : list string) : World :=
  {| trace := [ReadAdditions];
     logged := ["=== Publishing types-registry ===";
                "New packages have been added: " +:+ JSON_stringify env added
                +:+ ", so publishing a new registry"] |}.

(** The world in which [generateAndPublishRegistry] calls [generate]. *)
Definition prepared (added : list string) : World :=
  emit (FetchLastPatchNumber packageName) (emit ReadTypings (announced added)).

(** The calls of a generation that runs to its end: clear, write the
    manifest, look every typing up, write the index, write the readme. *)
Definition generation_events (typings : list TypingsData) (p : PackageJson)
    (reg : Registry) : list event :=
  [ClearOutputPath (registryOutputPath env);
   WriteJson (joinPaths env (registryOutputPath env) "package.json")
     (Manifest p)]
  ++ lookup_events env typings
  ++ [WriteJson (joinPaths env (registryOutputPath env) "index.json")
        (Index reg);
      WriteJson (joinPaths env (registryOutputPath env) "README.md")
        (Text readme)].

End Worlds.

(** ** Sample runs *)

(** A run environment in which every collaborator but the registry lookup
    succeeds. *)
Definition sample_env (added : list string) (typings : list TypingsData)
    (lookup : string → outcome string (gmap string (gmap string string)))
    (sched : list nat) : Env string unit :=
  {| npmRegistry := "https://registry.npmjs.org/";
     outputPath := "output";
     joinPaths := λ a b, a +:+ "/" +:+ b;
     allVersionTags := ["latest"; "ts2.8"];
     JSON_stringify := λ l, "[" +:+ String.concat "," l +:+ "]";
     number_digits := λ _, "1e+21";
     Options_defaults := ();
     additions := Resolved added;
     typings_read := Resolved typings;
     last_patch := λ _, Resolved 41%Z;
     cleared := λ _, ([], Resolved ());
     written := λ _ _, Resolved ();
     fetched := lookup;
     client_created := Resolved ();
     published := λ _ _ _, Resolved ();
     log_written := λ _ _, Resolved ();
     schedule := sched |}.

(** The two packages of the registry-generation example. *)
Definition two_typings : list TypingsData :=
  [ {| name := "a"; fullEscapedNpmName := "a" |};
    {| name := "b"; fullEscapedNpmName := "b__types" |} ].

Definition two_lookup (uri : string)
  : outcome string (gmap string (gmap string string)) :=
  if String.eqb uri "https://registry.npmjs.org/a" then
    Resolved {[ "dist-tags" :=
                  {[ "latest" := "1.0.0"; "ts2.8" := "0.9.0"; "bogus" := "x" ]} ]}
  else if String.eqb uri "https://registry.npmjs.org/b__types" then
    Resolved {[ "dist-tags" := {[ "latest" := "2.0.0" ]} ]}
  else Rejected "E404".

Definition two_env (added : list string) (sched : list nat) : Env string unit :=
  sample_env added two_typings two_lookup sched.

Definition two_index : Registry :=
  {| entries :=
       {[ "a" := {[ "latest" := "1.0.0"; "ts2.8" := "0.9.0" ]};
          "b" := {[ "latest" := "2.0.0" ]} ]} |}.

(** The same run, with [2^53] as the last patch number published. *)
Definition large_env : Env string unit :=
  {| npmRegistry := "https://registry.npmjs.org/";
     outputPath := "output";
     joinPaths := λ a b, a +:+ "/" +:+ b;
     allVersionTags := ["latest"; "ts2.8"];
     JSON_stringify := λ l, "[" +:+ String.concat "," l +:+ "]";
     number_digits := λ _, "1e+21";
     Options_defaults := ();
     additions := Resolved ["b"];
     typings_read := Resolved two_typings;
     last_patch := λ _, Resolved (2 ^ 53)%Z;
     cleared := λ _, ([], Resolved ());
     written := λ _ _, Resolved ();
     fetched := two_lookup;
     client_created := Resolved ();
     published := λ _ _ _, Resolved ();
     log_written := λ _ _, Resolved ();
     schedule := [1; 0] |}.

(** The same, with the lookup of the second package failing. *)
Definition failing_lookup (uri : string)
  : outcome string (gmap string (gmap string string)) :=
  if String.eqb uri "https://registry.npmjs.org/a" then
    Resolved {[ "dist-tags" := {[ "latest" := "1.0.0" ]} ]}
  else Rejected "ETIMEDOUT".

Definition failing_env (sched : list nat) : Env string unit :=
  sample_env ["b"] two_typings failing_lookup sched.

(** Two typings listed under one name and looked up under two. *)
Definition twin_typings : list TypingsData :=
  [ {| name := "a"; fullEscapedNpmName := "a" |};
    {| name := "a"; fullEscapedNpmName := "b__types" |} ].

Definition twin_env : Env string unit :=
  sample_env ["a"] twin_typings two_lookup [].

(** A typing named ["__proto__"]. *)
Definition proto_typings : list TypingsData :=
  [ {| name := "__proto__"; fullEscapedNpmName := "a" |} ].

Definition proto_env : Env string unit :=
  sample_env ["__proto__"] proto_typings two_lookup [].

(** A transform on numbers that doubles its item and touches nothing. *)
Definition doubling : @transform nat nat string unit :=
  {| invoke _ s := s; settle x s := (Resolved (2 * x), s) |}.

(** The pool of a doubling run over three items with two workers, three
    moves in. *)
Definition sample_pool : @pool nat string unit :=
  drive [1; 2; 3] doubling (@None (@ProgressConfig nat unit)) 3 [1; 0; 1]
    (init 2 [1; 2; 3] ()).

(** A package whose registry answer carries no [dist-tags]. *)
Definition bare_typings : list TypingsData :=
  [ {| name := "c"; fullEscapedNpmName := "c" |} ].

Definition bare_lookup (uri : string)
  : outcome string (gmap string (gmap string string)) :=
  Resolved {[ "name" := {[ "value" := "@types/c" ]} ]}.

Definition bare_env : Env string unit :=
  sample_env ["c"] bare_typings bare_lookup [].

(** ** Further readings of a run *)

(** Typings that are listed under one name are looked up under one key. *)
Definition same_name_same_key (typings : list TypingsData) : Prop :=
  ∀ t t', t ∈ typings → t' ∈ typings → name t = name t' →
          fullEscapedNpmName t = fullEscapedNpmName t'.

(** How the call recorded as [ev] settles in [env]: the rejection, if it
    rejects. *)
Definition rejection {Err Options : Type} (env : Env Err Options) (ev : event)
  : option Err :=
  let rej {A} (o : outcome Err A) : option Err :=
    match o with Rejected e => Some e | Resolved _ => None end in
  match ev with
  | ReadAdditions => rej (additions env)
  | ReadTypings => rej (typings_read env)
  | FetchLastPatchNumber pkg => rej (last_patch env pkg)
  | ClearOutputPath path => rej (cleared env path).2
  | WriteJson path c => rej (written env path c)
  | FetchJson uri _ => rej (fetched env uri)
  | NpmClientCreate => rej (client_created env)
  | ClientPublish dir p dry => rej (published env dir p dry)
  | WriteLog file lines => rej (log_written env file lines)
  end.

(** A pool with what it has displayed left out. *)
Definition undisplayed {U E St : Type} (p : @pool U E St) : @pool U E St :=
  {| nextIndex := nextIndex p;
     results := results p;
     workers := workers p;
     shared := shared p;
     invoked := invoked p;
     failure := failure p;
     display := [] |}.

(** * Properties *)

(** ** The bounded concurrent mapper *)

Ltac fields :=
  cbn [nextIndex results workers shared invoked failure display].

Ltac upd H := apply list_lookup_insert_Some in H as [(-> & ? & ?) | [? ?]].

(** Every awaited index lies below the cursor. *)
Ltac claimed Hcl :=
  repeat match goal with
  | H : workers ?p !! ?w = Some (Awaiting ?i) |- _ =>
      lazymatch goal with
      | _ : i < nextIndex p |- _ => fail
      | _ => pose proof (Hcl _ _ H)
      end
  end.

Ltac close Hcl := simplify_eq; claimed Hcl; first [done | lia | by eauto].

Section MapperFacts.
Context {T U E St O : Type}.
Variable L : nat.
Variable inputs : list T.
Variable use : @transform T U E St.
Variable progress : option (@ProgressConfig T O).

Local Abbreviation init' := (@init T U E St L inputs).
Local Abbreviation fire' := (fire inputs use progress).
Local Abbreviation step' := (step inputs use progress).
Local Abbreviation inv' := (inv L inputs use).
Local Abbreviation work_left' := (work_left inputs).
Implicit Types p q : @pool U E St.

Lemma inv_init s : inv' (init' s).
Proof.
  split; simpl; try done.
  - lia.
  - by rewrite length_replicate.
  - by rewrite length_replicate.
  - by intros w i [[=] _]%lookup_replicate.
  - by intros w1 w2 i [[=] _]%lookup_replicate.
  - by intros w [[=] _]%lookup_replicate.
  - by intros w e [[=] _]%lookup_replicate.
  - lia.
Qed.

Lemma inv_fire w p p' : inv' p → fire' w p = Some p' → inv' p'.
Proof.
  intros [Hc Hs Hi Hw Hcl Hd Hf Hfl Hr Hst] Hfire.
  unfold fire in Hfire.
  destruct (workers p !! w) as [[|i| |e]|] eqn:Hwk; try done.
  - destruct (inputs !! nextIndex p) as [x|] eqn:Hx; simplify_eq.
    + apply lookup_lt_Some in Hx.
      split; fields.
      * lia.
      * done.
      * by rewrite seq_S, Hi.
      * by rewrite length_insert.
      * intros w' i H. upd H; close Hcl.
      * intros w1 w2 i H1 H2. upd H1; upd H2; close Hcl.
      * intros w' H. upd H; simplify_eq. pose proof (Hf _ H0). lia.
      * intros w' e H. upd H; close Hcl.
      * done.
      * intros i Hnone Hlt.
        destruct (decide (i = nextIndex p)) as [->|Hne].
        -- left. exists w. apply list_lookup_insert_eq.
           by eapply lookup_lt_Some.
        -- destruct (Hst i Hnone ltac:(lia)) as [[w' Hw']|Hdone]; [|by right].
           left. exists w'. rewrite list_lookup_insert_ne; [done|].
           intros ->. congruence.
    + apply lookup_ge_None in Hx.
      split; fields; try done.
      * by rewrite length_insert.
      * intros w' i H. upd H; close Hcl.
      * intros w1 w2 i H1 H2. upd H1; upd H2; close Hcl.
      * intros w' H. upd H; close Hcl.
      * intros w' e H. upd H; close Hcl.
      * intros i Hnone Hlt.
        destruct (Hst i Hnone Hlt) as [[w' Hw']|Hdone]; [|by right].
        left. exists w'. rewrite list_lookup_insert_ne; [done|].
        intros ->. congruence.
  - destruct (inputs !! i) as [x|] eqn:Hx; [|done].
    destruct (settle use x (shared p)) as [[u|e] s'] eqn:Hset; simplify_eq.
    + split; fields; try done.
      * by rewrite length_insert.
      * by rewrite length_insert.
      * intros w' j H. upd H; close Hcl.
      * intros w1 w2 j H1 H2. upd H1; upd H2; close Hcl.
      * intros w' H. upd H; close Hcl.
      * intros w' e H. upd H; close Hcl.
      * intros j Hnone Hlt.
        destruct (decide (j = i)) as [->|Hne].
        -- right. exists x, u, (shared p). split_and!; [done| |by rewrite Hset].
           apply list_lookup_insert_eq. rewrite Hs. by eapply lookup_lt_Some.
        -- destruct (Hst j Hnone Hlt) as [[w' Hw']|(y & v & s & ? & ? & ?)].
           ++ left. exists w'. rewrite list_lookup_insert_ne; [done|].
              intros ->. congruence.
           ++ right. exists y, v, s. split_and!; [done| |done].
              by rewrite list_lookup_insert_ne.
    + split; fields; try done.
      * by rewrite length_insert.
      * intros w' j H. upd H; close Hcl.
      * intros w1 w2 j H1 H2. upd H1; upd H2; close Hcl.
      * intros w' H. upd H; close Hcl.
      * intros w' e' H. by destruct (failure p).
      * intros e' He'. destruct (failure p) as [e0|] eqn:Hfail; simplify_eq.
        -- eauto.
        -- exists i, x, (shared p). by rewrite Hset.
      * intros j Hnone. by destruct (failure p).
Qed.

Lemma inv_reachable s p : reachable L inputs use progress s p → inv' p.
Proof.
  unfold reachable. intros Hrtc.
  assert (Hi : inv' (init' s)) by apply inv_init.
  induction Hrtc as [|p q r [w Hw] _ IH]; [done|].
  apply IH. by eapply inv_fire.
Qed.

Lemma sum_list_insert {A} (f : A → nat) (l : list A) i x y :
  l !! i = Some y →
  sum_list (f <$> <[i:=x]> l) + f y = sum_list (f <$> l) + f x.
Proof.
  revert i. induction l as [|a l IH]; intros [|i] Hi; simplify_eq/=; [lia|].
  specialize (IH _ Hi). lia.
Qed.

(** Every move uses up some of the work left. *)
Lemma fire_work_left w p p' :
  inv' p → fire' w p = Some p' → work_left' p' < work_left' p.
Proof.
  intros Hinv Hfire. unfold fire in Hfire.
  unfold work_left.
  destruct (workers p !! w) as [[|i| |e]|] eqn:Hwk; try done.
  - destruct (inputs !! nextIndex p) as [x|] eqn:Hx; simplify_eq; fields.
    + apply lookup_lt_Some in Hx.
      pose proof (sum_list_insert weight _ _ (Awaiting (nextIndex p)) _ Hwk).
      simpl in *. lia.
    + pose proof (sum_list_insert weight _ _ Finished _ Hwk).
      simpl in *. lia.
  - destruct (inputs !! i) as [x|] eqn:Hx; [|done].
    destruct (settle use x (shared p)) as [[u|e] s'] eqn:Hset;
      simplify_eq; fields.
    + pose proof (sum_list_insert weight _ _ Ready _ Hwk). simpl in *. lia.
    + pose proof (sum_list_insert weight _ _ (Failed e) _ Hwk).
      simpl in *. lia.
Qed.

(** A worker that is ready or awaiting can always move. *)
Lemma live_fires w wk p :
  inv' p → workers p !! w = Some wk → is_live wk = true → is_Some (fire' w p).
Proof.
  intros Hinv Hwk Hlive. unfold fire. rewrite Hwk.
  destruct wk as [|i| |e]; try done.
  - by destruct (inputs !! nextIndex p).
  - pose proof (inv_claimed _ _ _ _ Hinv _ _ Hwk) as Hlt.
    pose proof (inv_cursor _ _ _ _ Hinv) as Hle.
    destruct (lookup_lt_is_Some_2 inputs i ltac:(lia)) as [x ->].
    by destruct (settle use x (shared p)) as [[?|?] ?].
Qed.

Lemma fire_live w p p' :
  fire' w p = Some p' → ∃ wk, workers p !! w = Some wk ∧ is_live wk = true.
Proof.
  unfold fire. destruct (workers p !! w) as [[|i| |e]|]; try done.
  all: eauto.
Qed.

Lemma enabled_live p w :
  w ∈ enabled p ↔ ∃ wk, workers p !! w = Some wk ∧ is_live wk = true.
Proof.
  unfold enabled. rewrite list_elem_of_filter, elem_of_seq. split.
  - intros [Hl _]. destruct (workers p !! w) as [wk|]; simplify_eq/=. eauto.
  - intros (wk & Hwk & Hl). rewrite Hwk. simpl. split; [by rewrite Hl|].
    apply lookup_lt_Some in Hwk. lia.
Qed.

Lemma choose_Some c p w :
  choose c p = Some w → ∃ wk, workers p !! w = Some wk ∧ is_live wk = true.
Proof.
  unfold choose. intros Hc. apply list_elem_of_lookup_2 in Hc.
  by apply enabled_live in Hc.
Qed.

Lemma choose_None c p :
  choose c p = None → ∀ w wk, workers p !! w = Some wk → is_live wk = false.
Proof.
  unfold choose. intros Hc w wk Hwk.
  destruct (is_live wk) eqn:Hl; [|done].
  assert (Hin : w ∈ enabled p) by (apply enabled_live; eauto).
  apply lookup_ge_None in Hc.
  destruct (enabled p) as [|a l]; [by apply elem_of_nil in Hin|].
  pose proof (Nat.mod_upper_bound c (length (a :: l))). simpl in *. lia.
Qed.

(** Any enabled worker can be the one the schedule picks. *)
Lemma choose_any p w wk :
  workers p !! w = Some wk → is_live wk = true → ∃ c, choose c p = Some w.
Proof.
  intros Hwk Hl.
  assert (Hin : w ∈ enabled p) by (apply enabled_live; eauto).
  apply list_elem_of_lookup_1 in Hin as [c Hc]. exists c. unfold choose.
  rewrite Nat.mod_small; [done|]. by eapply lookup_lt_Some.
Qed.

(** Every move of the step relation is a move the driver makes under some
    schedule. *)
Lemma step_scheduled p p' :
  failure p = None → step' p p' →
  ∃ c, drive inputs use progress 1 [c] p = p'.
Proof.
  intros Hf [w Hw]. destruct (fire_live _ _ _ Hw) as (wk & Hwk & Hl).
  destruct (choose_any _ _ _ Hwk Hl) as [c Hc]. exists c.
  simpl. by rewrite Hf, Hc; simpl; rewrite Hw.
Qed.

(** The driver follows the step relation, and with fuel for the work left
    it runs until the operation has rejected or no worker is live. *)
Lemma drive_steps fuel sched p : rtc step' p (drive inputs use progress fuel sched p).
Proof.
  revert sched p. induction fuel as [|k IH]; intros sched p; simpl; [done|].
  destruct (failure p); [done|].
  destruct (choose (hd 0 sched) p) as [w|]; simpl; [|done].
  destruct (fire' w p) as [p'|] eqn:Hf; [|done].
  eapply rtc_l; [by exists w|]. apply IH.
Qed.

Lemma drive_done fuel sched p :
  inv' p → work_left' p < fuel →
  let q := drive inputs use progress fuel sched p in
  failure q ≠ None ∨
  (∀ w wk, workers q !! w = Some wk → is_live wk = false).
Proof.
  revert sched p. induction fuel as [|k IH]; intros sched p Hinv Hlt; simpl;
    [lia|].
  destruct (failure p) eqn:Hfail; [left; by rewrite Hfail|].
  destruct (choose (hd 0 sched) p) as [w|] eqn:Hch; simpl.
  - destruct (choose_Some _ _ _ Hch) as (wk & Hwk & Hl).
    destruct (live_fires _ _ _ Hinv Hwk Hl) as [p' Hp']. rewrite Hp'.
    apply IH; [by eapply inv_fire|].
    pose proof (fire_work_left _ _ _ Hinv Hp'). lia.
  - right. by eapply choose_None.
Qed.

Lemma work_left_init s : work_left' (init' s) < fuel_bound inputs.
Proof.
  unfold work_left, fuel_bound, init. fields.
  assert (∀ n, sum_list (weight <$> replicate n (@Ready E)) = n) as ->.
  { induction n as [|n IH]; [done|]. rewrite replicate_S, fmap_cons. simpl.
    by rewrite IH. }
  lia.
Qed.

(** When no worker is live and none has failed, every item has been
    claimed and its result stored. *)
Lemma stopped_complete p :
  1 ≤ L → inv' p → failure p = None →
  (∀ w wk, workers p !! w = Some wk → is_live wk = false) →
  nextIndex p = length inputs ∧
  ∀ i x, inputs !! i = Some x →
    ∃ u s, results p !! i = Some (Some u) ∧ (settle use x s).1 = Resolved u.
Proof.
  intros HL Hinv Hfail Hdead.
  assert (Hall : ∀ w wk, workers p !! w = Some wk → wk = Finished).
  { intros w wk Hwk. pose proof (Hdead _ _ Hwk).
    destruct wk as [|i| |e]; try done.
    by destruct (inv_failed _ _ _ _ Hinv _ _ Hwk). }
  assert (Hnext : nextIndex p = length inputs).
  { pose proof (inv_cursor _ _ _ _ Hinv).
    pose proof (inv_workers _ _ _ _ Hinv) as Hlen.
    destruct (workers p !! 0) as [wk|] eqn:Hw0.
    - apply (inv_finished _ _ _ _ Hinv 0). by rewrite Hw0, (Hall _ _ Hw0).
    - apply lookup_ge_None in Hw0. lia. }
  split; [done|]. intros i x Hx.
  pose proof (lookup_lt_Some _ _ _ Hx) as Hlt.
  destruct (inv_stored _ _ _ _ Hinv i Hfail ltac:(lia))
    as [[w Hw]|(y & u & s & ? & ? & ?)].
  - by apply Hall in Hw.
  - simplify_eq. eauto.
Qed.

Lemma quiescent_dead p :
  inv' p → quiescent inputs use progress p →
  ∀ w wk, workers p !! w = Some wk → is_live wk = false.
Proof.
  intros Hinv Hq w wk Hwk. destruct (is_live wk) eqn:Hl; [|done].
  destruct (live_fires _ _ _ Hinv Hwk Hl) as [p' Hp']. by rewrite Hq in Hp'.
Qed.

Lemma dead_settled p :
  1 ≤ L → inv' p → failure p = None →
  (∀ w wk, workers p !! w = Some wk → is_live wk = false) →
  settled p = Some (Resolved (results p)).
Proof.
  intros HL Hinv Hfail Hdead. unfold settled. rewrite Hfail.
  destruct (forallb _ (workers p)) eqn:Hall; [done|].
  apply not_true_iff_false in Hall. destruct Hall.
  apply Is_true_true, forallb_True, Forall_lookup. intros w wk Hwk.
  pose proof (Hdead _ _ Hwk). destruct wk as [|i| |e]; try done.
  by destruct (inv_failed _ _ _ _ Hinv _ _ Hwk).
Qed.

Lemma pending_le p : inv' p → pending p ≤ L.
Proof.
  intros Hinv. unfold pending.
  pose proof (length_filter (λ w, is_awaiting w = true) (workers p)).
  pose proof (inv_workers _ _ _ _ Hinv). lia.
Qed.

(** What the mapper resolves with is complete, and what it rejects with
    is the rejection of one of the transforms. *)
Lemma nAtATime_resolved sched (s : St) out s' :
  1 ≤ L →
  nAtATime L inputs use progress sched s = (Resolved out, s') →
  length out = length inputs ∧
  ∀ i x, inputs !! i = Some x →
    ∃ u s0, out !! i = Some (Some u) ∧ (settle use x s0).1 = Resolved u.
Proof.
  intros HL. unfold nAtATime.
  set (q := drive inputs use progress (fuel_bound inputs) sched (init' s)).
  assert (Hinv : inv' q).
  { apply (inv_reachable s). apply drive_steps. }
  destruct (failure q) eqn:Hf; [done|]. intros [= <- <-].
  destruct (drive_done (fuel_bound inputs) sched (init' s) (inv_init s)
              (work_left_init s)) as [Hfail|Hdead]; [done|].
  split; [apply (inv_slots _ _ _ _ Hinv)|].
  by destruct (stopped_complete q HL Hinv Hf Hdead).
Qed.

Lemma nAtATime_rejected sched (s : St) e s' :
  nAtATime L inputs use progress sched s = (Rejected e, s') →
  ∃ i x s0, inputs !! i = Some x ∧ (settle use x s0).1 = Rejected e.
Proof.
  unfold nAtATime.
  set (q := drive inputs use progress (fuel_bound inputs) sched (init' s)).
  assert (Hinv : inv' q).
  { apply (inv_reachable s). apply drive_steps. }
  destruct (failure q) eqn:Hf; [|done]. intros [= <- <-].
  by apply (inv_rejected _ _ _ _ Hinv).
Qed.

Section Total.
Variable f : T → U.
Hypothesis use_total :
  ∀ x s, x ∈ inputs → (settle use x s).1 = Resolved (f x).

Lemma never_fails p : inv' p → failure p = None.
Proof.
  intros Hinv. destruct (failure p) as [e|] eqn:Hfail; [|done].
  destruct (inv_rejected _ _ _ _ Hinv e Hfail) as (i & x & s & Hx & Hrej).
  rewrite use_total in Hrej by (by eapply list_elem_of_lookup_2). done.
Qed.

Lemma stopped_results p :
  1 ≤ L → inv' p →
  (∀ w wk, workers p !! w = Some wk → is_live wk = false) →
  results p = (λ x, Some (f x)) <$> inputs.
Proof.
  intros HL Hinv Hdead.
  destruct (stopped_complete p HL Hinv (never_fails p Hinv) Hdead)
    as [_ Hres].
  apply list_eq. intros i. rewrite list_lookup_fmap.
  destruct (inputs !! i) as [x|] eqn:Hx; simpl.
  - destruct (Hres i x Hx) as (u & s & -> & Hu).
    rewrite use_total in Hu by (by eapply list_elem_of_lookup_2).
    by simplify_eq.
  - apply lookup_ge_None. apply lookup_ge_None in Hx.
    rewrite (inv_slots _ _ _ _ Hinv). lia.
Qed.

(** C2. With a limit of at least one, and a transform that resolves every
    item [x] of the input with [f x], the mapper resolves, under every schedule, with an
    output that has one slot per input, slot [i] holding [f] of input [i];
    and whatever the interleaving of the workers, a pool in which no worker
    can move any more has settled with that very output. *)
Theorem nAtATime_maps_in_order (sched : list nat) (s : St) :
  1 ≤ L →
  (∃ out s',
      nAtATime L inputs use progress sched s = (Resolved out, s') ∧
      length out = length inputs ∧
      ∀ i x, inputs !! i = Some x → out !! i = Some (Some (f x))) ∧
  (∀ p, reachable L inputs use progress s p →
        quiescent inputs use progress p →
        settled p = Some (Resolved ((λ x, Some (f x)) <$> inputs))).
Proof.
  intros HL. split.
  - unfold nAtATime.
    set (q := drive inputs use progress (fuel_bound inputs) sched (init' s)).
    assert (Hinv : inv' q).
    { apply (inv_reachable s). apply drive_steps. }
    pose proof (never_fails q Hinv) as Hnf.
    destruct (drive_done (fuel_bound inputs) sched (init' s) (inv_init s)
                (work_left_init s)) as [Hfail|Hdead]; [done|].
    fold q in Hdead. rewrite Hnf.
    exists (results q), (shared q). split; [done|].
    rewrite (stopped_results q HL Hinv Hdead).
    split; [by rewrite length_fmap|].
    intros i x Hx. by rewrite list_lookup_fmap, Hx.
  - intros p Hreach Hq.
    pose proof (inv_reachable _ _ Hreach) as Hinv.
    pose proof (quiescent_dead p Hinv Hq) as Hdead.
    rewrite <- (stopped_results p HL Hinv Hdead).
    apply dead_settled; auto using never_fails.
Qed.

End Total.

(** C3. In every pool the mapper can reach, at most [L] transform
    invocations are pending; the invocations made so far are those of the
    items below the cursor, each made once and in order, so that none is
    passed over and none repeated; and once no worker can move and no
    transform has rejected, every item has been invoked. *)
Theorem nAtATime_bounded (s : St) (p : pool) :
  1 ≤ L → L ≤ length inputs →
  reachable L inputs use progress s p →
  pending p ≤ L ∧
  invoked p = seq 0 (nextIndex p) ∧
  NoDup (invoked p) ∧
  (∀ i, i ∈ invoked p → i < length inputs) ∧
  (quiescent inputs use progress p → failure p = None →
   invoked p = seq 0 (length inputs)).
Proof.
  intros HL _ Hreach.
  pose proof (inv_reachable _ _ Hreach) as Hinv.
  pose proof (inv_invoked _ _ _ _ Hinv) as Hinvk.
  pose proof (inv_cursor _ _ _ _ Hinv) as Hcur.
  split_and!.
  - by apply pending_le.
  - done.
  - rewrite Hinvk. apply NoDup_seq.
  - intros i. rewrite Hinvk, elem_of_seq. lia.
  - intros Hq Hfail. rewrite Hinvk. f_equal.
    by destruct (stopped_complete p HL Hinv Hfail (quiescent_dead p Hinv Hq)).
Qed.

End MapperFacts.

(** ** [pick] *)

Lemma lookup_js_set {V} (key : string) (v : V) (obj : gmap string V) k :
  js_set key v obj !! k
  = if bool_decide (key = k ∧ key ≠ "__proto__") then Some v else obj !! k.
Proof.
  unfold js_set. case_bool_decide as Hp.
  - rewrite bool_decide_eq_false_2; [done|]. intros [_ ?]. done.
  - destruct (decide (key = k)) as [->|Hne].
    + rewrite lookup_insert_eq. by rewrite bool_decide_eq_true_2.
    + rewrite lookup_insert_ne by done.
      rewrite bool_decide_eq_false_2; [done|]. by intros [? _].
Qed.

Lemma foldl_pick {V} (keys : list string) (l : list (string * V))
    (acc : gmap string V) (k : string) :
  NoDup l.*1 →
  foldl (λ out kv, if bool_decide (kv.1 ∈ keys) then js_set kv.1 kv.2 out
                   else out) acc l !! k
  = match (if bool_decide (k ∈ keys ∧ k ≠ "__proto__")
           then (list_to_map l : gmap string V) !! k else None) with
    | Some v => Some v
    | None => acc !! k
    end.
Proof.
  revert acc. induction l as [|[k0 v0] l IH]; intros acc Hnd.
  - simpl. rewrite lookup_empty. by case_bool_decide.
  - apply NoDup_cons in Hnd as [Hk0 Hnd]. cbn [foldl]. rewrite IH by done.
    rewrite list_to_map_cons. cbn [fst snd].
    assert (Hstep : (if bool_decide (k0 ∈ keys) then js_set k0 v0 acc else acc)
                    !! k
                    = if bool_decide (k0 = k ∧ k ∈ keys ∧ k ≠ "__proto__")
                      then Some v0 else acc !! k).
    { destruct (bool_decide (k0 ∈ keys)) eqn:Hin.
      - apply bool_decide_eq_true in Hin. rewrite lookup_js_set.
        repeat case_bool_decide; naive_solver.
      - apply bool_decide_eq_false in Hin.
        rewrite bool_decide_eq_false_2; naive_solver. }
    rewrite Hstep. clear Hstep.
    destruct (decide (k0 = k)) as [->|Hne].
    + rewrite lookup_insert_eq, (not_elem_of_list_to_map_1 l k) by done.
      repeat case_bool_decide; naive_solver.
    + rewrite lookup_insert_ne by done.
      rewrite (bool_decide_eq_false_2 (k0 = k ∧ _)) by naive_solver. done.
Qed.

(** [pick] keeps the properties whose key is listed, and only those; the
    key ["__proto__"] it never keeps. *)
Lemma lookup_pick {V} (obj : gmap string V) (keys : list string) (k : string) :
  pick obj keys !! k
  = if bool_decide (k ∈ keys ∧ k ≠ "__proto__") then obj !! k else None.
Proof.
  unfold pick. rewrite foldl_pick by apply NoDup_fst_map_to_list.
  rewrite list_to_map_to_list, lookup_empty.
  case_bool_decide; [by destruct (obj !! k)|done].
Qed.

(** ** Registry generation *)

Section RegistryFacts.
Context {Err Options : Type}.
Variable env : Env Err Options.
Variable typings : list TypingsData.
Variable options : Options.
Variable w0 : World.

Local Abbreviation progress := (Some (registryProgress options)).
Local Abbreviation store := (World * gmap string (gmap string string))%type.
Local Abbreviation rinv := (registry_inv env w0 typings).
Local Abbreviation minv := (inv 25 typings (addEntry env)).
Local Abbreviation final_pool := (final_pool env typings options w0).
Implicit Types p q : @pool unit Err store.

Lemma addEntry_settle t (s : store) :
  (settle (addEntry env) t s).1
  = match getVersions_settle env (fullEscapedNpmName t) with
    | Resolved _ => Resolved ()
    | Rejected e => Rejected e
    end.
Proof. simpl. by destruct (getVersions_settle env _). Qed.

Lemma registry_inv_init : rinv (init 25 typings (w0, ∅)).
Proof.
  split; simpl.
  - by rewrite app_nil_r.
  - done.
  - intros k v. by rewrite lookup_empty.
  - intros i t _ [[=] _]%lookup_replicate.
  - done.
Qed.

Lemma registry_inv_fire w p p' :
  minv p → rinv p →
  fire typings (addEntry env) progress w p = Some p' → rinv p'.
Proof.
  intros Hinv [Htr Hlg Hsd Hcp Hpr] Hfire. unfold fire in Hfire.
  destruct (workers p !! w) as [[|i| |e]|] eqn:Hwk; try done.
  - destruct (typings !! nextIndex p) as [x|] eqn:Hx; simplify_eq.
    + split; fields; try done.
      rewrite (take_S_r _ _ _ Hx). unfold lookup_events in *.
      rewrite fmap_app, app_assoc, <- Htr. done.
    + by split.
  - destruct (typings !! i) as [x|] eqn:Hx; [|done].
    pose proof (lookup_lt_Some _ _ _ Hx) as Hlt.
    pose proof (inv_slots _ _ _ _ Hinv) as Hlen.
    cbn [settle addEntry] in Hfire.
    destruct (getVersions_settle env (fullEscapedNpmName x)) as [v|e] eqn:Hv;
      simplify_eq.
    + split; fields; cbn [fst snd]; try done.
      * intros k v'. rewrite lookup_js_set. case_bool_decide as Hc.
        -- destruct Hc as [<- _]. intros [= <-]. exists i, x.
           split_and!; try done.
           apply list_lookup_insert_eq. lia.
        -- intros Hk.
           destruct (Hsd _ _ Hk) as (j & t & Ht & Hn & Hs & Hr).
           exists j, t. split_and!; try done.
           destruct (decide (i = j)) as [->|Hij].
           ++ apply list_lookup_insert_eq. lia.
           ++ by rewrite list_lookup_insert_ne.
      * intros j t Ht Hr Hp. rewrite lookup_js_set.
        case_bool_decide as Hc; [done|].
        destruct (decide (i = j)) as [->|Hij].
        -- destruct Hc. split; congruence.
        -- rewrite list_lookup_insert_ne in Hr by done. eauto.
      * rewrite lookup_js_set. case_bool_decide as Hc; [|done].
        by destruct Hc.
    + by split.
Qed.

Lemma registry_reachable p :
  reachable 25 typings (addEntry env) progress (w0, ∅) p → minv p ∧ rinv p.
Proof.
  unfold reachable. intros Hrtc.
  assert (Hi : minv (init 25 typings (w0, ∅)) ∧ rinv (init 25 typings (w0, ∅))).
  { split; [apply inv_init | apply registry_inv_init]. }
  induction Hrtc as [|p q r [w Hw] _ IH]; [done|].
  destruct Hi as [Hm Hr]. apply IH. split.
  - by eapply inv_fire.
  - by eapply registry_inv_fire.
Qed.

Lemma generateRegistry_final :
  generateRegistry env typings options w0
  = (match failure final_pool with
     | Some e => Rejected e
     | None => Resolved {| entries := (shared final_pool).2 |}
     end, (shared final_pool).1).
Proof.
  unfold generateRegistry, nAtATime. fold final_pool.
  destruct (failure final_pool); by destruct (shared final_pool).
Qed.

Lemma final_pool_inv : minv final_pool ∧ rinv final_pool.
Proof. apply registry_reachable. apply drive_steps. Qed.

Lemma final_pool_done :
  failure final_pool ≠ None ∨
  (∀ w wk, workers final_pool !! w = Some wk → is_live wk = false).
Proof.
  apply (drive_done 25 typings (addEntry env) progress).
  - apply inv_init.
  - apply work_left_init.
Qed.

(** A rejection of the mapper is the rejection of one of the lookups. *)
Lemma final_pool_failure e :
  failure final_pool = Some e →
  ∃ t, t ∈ typings ∧
       fetched env (getVersions_uri env (fullEscapedNpmName t)) = Rejected e.
Proof.
  intros Hf. destruct final_pool_inv as [Hm _].
  destruct (inv_rejected _ _ _ _ Hm e Hf) as (i & t & s & Ht & Hrej).
  exists t. split; [by eapply list_elem_of_lookup_2|].
  rewrite addEntry_settle in Hrej. unfold getVersions_settle in Hrej.
  by destruct (fetched env _); simplify_eq.
Qed.

(** When the mapper has not rejected, every lookup has succeeded and every
    slot of its output is filled. *)
Lemma final_pool_success :
  failure final_pool = None →
  nextIndex final_pool = length typings ∧
  ∀ i t, typings !! i = Some t →
    results final_pool !! i = Some (Some ()) ∧
    ∃ v, getVersions_settle env (fullEscapedNpmName t) = Resolved v.
Proof.
  intros Hf. destruct final_pool_inv as [Hm _].
  destruct final_pool_done as [?|Hdead]; [done|].
  destruct (stopped_complete 25 typings (addEntry env) final_pool
              ltac:(lia) Hm Hf Hdead) as [Hn Hres].
  split; [done|]. intros i t Ht.
  destruct (Hres i t Ht) as ([] & s & Hr & Hs). split; [done|].
  rewrite addEntry_settle in Hs.
  destruct (getVersions_settle env _); [eauto|done].
Qed.

(** What the lookups did to the world. *)
Lemma generateRegistry_world :
  ∃ n, trace (generateRegistry env typings options w0).2
       = trace w0 ++ lookup_events env (take n typings) ∧
       logged (generateRegistry env typings options w0).2 = logged w0 ∧
       (∀ r, (generateRegistry env typings options w0).1 = Resolved r →
             n = length typings).
Proof.
  rewrite generateRegistry_final. simpl.
  destruct final_pool_inv as [Hm [Htr Hlg _ _ _]].
  exists (nextIndex final_pool). split_and!; try done.
  intros r Hr. destruct (failure final_pool) eqn:Hf; [done|].
  by destruct (final_pool_success Hf).
Qed.

Lemma getVersions_settle_Resolved t info :
  fetched env (getVersions_uri env (fullEscapedNpmName t)) = Resolved info →
  getVersions_settle env (fullEscapedNpmName t)
  = Resolved (pick (dist_tags info) (allVersionTags env)).
Proof. unfold getVersions_settle. by intros ->. Qed.

(** When every lookup succeeds, the registry resolves; its keys are the
    names of the typings, and what is listed under a name is what was
    picked for a typing of that name. *)
Lemma generateRegistry_resolves :
  (∀ t, t ∈ typings →
        ∃ info, fetched env (getVersions_uri env (fullEscapedNpmName t))
                = Resolved info) →
  ∃ reg w',
    generateRegistry env typings options w0 = (Resolved reg, w') ∧
    (∀ k, is_Some (entries reg !! k) ↔
          k ≠ "__proto__" ∧ ∃ t, t ∈ typings ∧ name t = k) ∧
    (∀ k v, entries reg !! k = Some v →
       ∃ t info, t ∈ typings ∧ name t = k ∧
         fetched env (getVersions_uri env (fullEscapedNpmName t))
         = Resolved info ∧
         v = pick (dist_tags info) (allVersionTags env)) ∧
    (NoDup (name <$> typings) →
     ∀ t info, t ∈ typings → name t ≠ "__proto__" →
       fetched env (getVersions_uri env (fullEscapedNpmName t))
       = Resolved info →
       entries reg !! name t
       = Some (pick (dist_tags info) (allVersionTags env))).
Proof.
  intros Hok. rewrite generateRegistry_final.
  destruct (failure final_pool) as [e|] eqn:Hf.
  { destruct (final_pool_failure e Hf) as (t & Ht & Hrej).
    destruct (Hok t Ht) as [info Hinfo]. congruence. }
  destruct (final_pool_success Hf) as [_ Hres].
  destruct final_pool_inv as [_ [_ _ Hsd Hcp Hpr]].
  eexists _, _. split; [done|]. cbn [entries].
  assert (Hsound : ∀ k v, (shared final_pool).2 !! k = Some v →
     ∃ t info, t ∈ typings ∧ name t = k ∧
       fetched env (getVersions_uri env (fullEscapedNpmName t))
       = Resolved info ∧
       v = pick (dist_tags info) (allVersionTags env)).
  { intros k v Hk. destruct (Hsd k v Hk) as (i & t & Ht & Hn & Hv & _).
    assert (Hin : t ∈ typings) by by eapply list_elem_of_lookup_2.
    destruct (Hok t Hin) as [info Hinfo]. exists t, info.
    rewrite (getVersions_settle_Resolved t info Hinfo) in Hv.
    split_and!; try done. congruence. }
  split_and!.
  - intros k. split.
    + intros [v Hk]. split; [intros ->; congruence|].
      destruct (Hsound k v Hk) as (t & _ & ? & ? & _). eauto.
    + intros (Hp & t & [i Ht]%list_elem_of_lookup_1 & <-).
      apply (Hcp i t Ht); [by destruct (Hres i t Ht)|done].
  - done.
  - intros Hnd t info [i Ht]%list_elem_of_lookup_1 Hp Hinfo.
    destruct (Hcp i t Ht) as [v Hv]; [by destruct (Hres i t Ht)|done|].
    rewrite Hv. f_equal.
    destruct (Hsd _ _ Hv) as (j & t' & Ht' & Hn & Hv' & _).
    assert (i = j) as <-.
    { eapply (NoDup_lookup _ _ _ _ Hnd); rewrite list_lookup_fmap.
      - by rewrite Ht.
      - rewrite Ht'. simpl. by rewrite Hn. }
    simplify_eq. rewrite (getVersions_settle_Resolved t info Hinfo) in Hv'.
    congruence.
Qed.

(** When some lookup fails, the registry rejects with the rejection of a
    lookup. *)
Lemma generateRegistry_rejects t e :
  t ∈ typings →
  fetched env (getVersions_uri env (fullEscapedNpmName t)) = Rejected e →
  ∃ e' t',
    (generateRegistry env typings options w0).1 = Rejected e' ∧
    t' ∈ typings ∧
    fetched env (getVersions_uri env (fullEscapedNpmName t')) = Rejected e'.
Proof.
  intros [i Ht]%list_elem_of_lookup_1 Hrej. rewrite generateRegistry_final.
  destruct (failure final_pool) as [e'|] eqn:Hf.
  - destruct (final_pool_failure e' Hf) as (t' & Ht' & Hrej'). eauto.
  - destruct (final_pool_success Hf) as [_ Hres].
    destruct (Hres i t Ht) as [_ [v Hv]].
    unfold getVersions_settle in Hv. by rewrite Hrej in Hv.
Qed.

End RegistryFacts.

(** The index of the two-package example, whatever the order in which the
    two lookups come back. *)
Lemma two_index_generated added sched w :
  (generateRegistry (two_env added sched) two_typings () w).1
  = Resolved two_index.
Proof.
  destruct (generateRegistry_resolves (two_env added sched) two_typings () w)
    as (reg & w' & -> & Hdom & _ & Hval).
  { intros t Ht. repeat (apply elem_of_cons in Ht as [->|Ht]);
      [by eexists..|by apply elem_of_nil in Ht]. }
  simpl. f_equal. destruct reg as [ents]. unfold two_index. f_equal.
  cbn [entries] in *. apply map_eq. intros k.
  assert (Hnd : NoDup (name <$> two_typings)).
  { apply (bool_decide_unpack _). by vm_compute. }
  specialize (Hval Hnd).
  destruct (decide (k = "a")) as [->|Ha].
  { assert (Hin : {| name := "a"; fullEscapedNpmName := "a" |} ∈ two_typings)
      by repeat constructor.
    pose proof (Hval _ _ Hin ltac:(done) eq_refl) as Hv. cbn [name] in Hv.
    rewrite Hv.
    by vm_compute. }
  destruct (decide (k = "b")) as [->|Hb].
  { assert (Hin : {| name := "b"; fullEscapedNpmName := "b__types" |}
                  ∈ two_typings) by repeat constructor.
    pose proof (Hval _ _ Hin ltac:(done) eq_refl) as Hv. cbn [name] in Hv.
    rewrite Hv.
    by vm_compute. }
  rewrite lookup_insert_ne, lookup_singleton_ne by done.
  apply eq_None_not_Some. rewrite Hdom. intros (_ & t & Ht & Hn).
  repeat (apply elem_of_cons in Ht as [->|Ht]); simplify_eq/=.
  by apply elem_of_nil in Ht.
Qed.

(** C1 (amended). For every list of typings whose lookups all succeed,
    [generateRegistry] resolves with an index whose keys are exactly the
    names of the typings (not their escaped names) other than
    ["__proto__"], which an assignment never makes a key; the value under a
    name is the [dist-tags] looked up for a typing of that name, restricted
    to the version-tag catalog, every other tag dropped, and the tag
    ["__proto__"] with them; and when the names are pairwise distinct there
    is one such entry per typing whose name is not ["__proto__"], holding
    that typing's own restricted [dist-tags]. For the two-package example
    the index is
    [{"a":{"latest":"1.0.0","ts2.8":"0.9.0"},"b":{"latest":"2.0.0"}}],
    whatever the order in which the lookups come back. *)
Theorem generateRegistry_lists_typings :
  (∀ (Err Options : Type) (env : Env Err Options)
     (typings : list TypingsData) (options : Options) (w : World),
     (∀ t, t ∈ typings → ∃ info, looked_up env t info) →
     ∃ reg w',
       generateRegistry env typings options w = (Resolved reg, w') ∧
       lists env typings reg) ∧
  (∀ added sched w,
     (generateRegistry (two_env added sched) two_typings () w).1
     = Resolved two_index).
Proof.
  split; [|apply two_index_generated].
  intros Err Options env typings options w Hok.
  destruct (generateRegistry_resolves env typings options w Hok)
    as (reg & w' & Hrun & Hdom & Hsound & Hown).
  exists reg, w'. split; [done|]. split_and!.
  - done.
  - intros k v Hk. destruct (Hsound k v Hk) as (t & info & ? & ? & ? & ->).
    exists t, info. split_and!; try done. intros tag. apply lookup_pick.
  - intros Hnd t info Ht Hp Hinfo. eexists. split; [by apply Hown|].
    intros tag. apply lookup_pick.
Qed.

(** A typing named ["__proto__"] is looked up and not listed. *)
Lemma proto_typings_not_listed :
  generateRegistry proto_env proto_typings () start
  = (Resolved {| entries := ∅ |},
     {| trace := [FetchJson "https://registry.npmjs.org/a" true];
        logged := [] |}).
Proof. by vm_compute. Qed.

Lemma generateRegistry_lists_typings_witness :
  (∀ t, t ∈ two_typings → ∃ info, looked_up (two_env ["b"] [1; 0]) t info) ∧
  ∃ reg w',
    generateRegistry (two_env ["b"] [1; 0]) two_typings () start
    = (Resolved reg, w') ∧
    lists (two_env ["b"] [1; 0]) two_typings reg.
Proof.
  assert (H : ∀ t, t ∈ two_typings →
                   ∃ info, looked_up (two_env ["b"] [1; 0]) t info).
  { intros t Ht. repeat (apply elem_of_cons in Ht as [->|Ht]);
      [by eexists..|by apply elem_of_nil in Ht]. }
  split; [exact H|].
  exact (proj1 generateRegistry_lists_typings _ _ (two_env ["b"] [1; 0])
           two_typings () start H).
Defined.

(** Two typings that share a name share one entry, which holds what was
    looked up for the one whose lookup came back last: the index has fewer
    entries than there are typings, and the first typing's [dist-tags] are
    not listed. *)
Lemma twin_typings_share_an_entry :
  ∃ reg,
    (generateRegistry twin_env twin_typings () start).1 = Resolved reg ∧
    (∀ t, t ∈ twin_typings → ∃ info, looked_up twin_env t info) ∧
    length twin_typings = 2 ∧
    size (entries reg) = 1 ∧
    ¬ (∀ t info, t ∈ twin_typings → looked_up twin_env t info →
         entries reg !! name t
         = Some (pick (dist_tags info) (allVersionTags twin_env))).
Proof.
  exists {| entries := {[ "a" := {[ "latest" := "2.0.0" ]} ]} |}.
  split_and!.
  - by vm_compute.
  - intros t Ht. repeat (apply elem_of_cons in Ht as [->|Ht]);
      [by eexists..|by apply elem_of_nil in Ht].
  - done.
  - by vm_compute.
  - intros H.
    assert (Hin : {| name := "a"; fullEscapedNpmName := "a" |} ∈ twin_typings)
      by repeat constructor.
    specialize (H _ _ Hin eq_refl). vm_compute in H. discriminate H.
Qed.

(** C4. A lookup that fails is not caught: when the lookup of some typing
    rejects, registry generation rejects, with the rejection of a failed
    lookup (that very rejection when it is the only one); and whenever the
    mapper resolves, with a limit of at least one, its output holds a result
    for every item, each from a transform that resolved. *)
Theorem failed_lookup_rejects_generation :
  (∀ (Err Options : Type) (env : Env Err Options)
     (typings : list TypingsData) (options : Options) (w : World)
     (t : TypingsData) (e : Err),
     t ∈ typings → fetched env (getVersions_uri env (fullEscapedNpmName t))
                   = Rejected e →
     (∃ e' t',
        (generateRegistry env typings options w).1 = Rejected e' ∧
        t' ∈ typings ∧
        fetched env (getVersions_uri env (fullEscapedNpmName t'))
        = Rejected e') ∧
     ((∀ t' e', t' ∈ typings →
         fetched env (getVersions_uri env (fullEscapedNpmName t'))
         = Rejected e' → e' = e) →
      (generateRegistry env typings options w).1 = Rejected e)) ∧
  (∀ (T U E St O : Type) (L : nat) (inputs : list T)
     (use : @transform T U E St) (progress : option (@ProgressConfig T O))
     (sched : list nat) (s s' : St) (out : list (option U)),
     1 ≤ L →
     nAtATime L inputs use progress sched s = (Resolved out, s') →
     length out = length inputs ∧
     ∀ i x, inputs !! i = Some x →
       ∃ u s0, out !! i = Some (Some u) ∧ (settle use x s0).1 = Resolved u).
Proof.
  split.
  - intros Err Options env typings options w t e Ht Hrej.
    destruct (generateRegistry_rejects env typings options w t e Ht Hrej)
      as (e' & t' & Hrun & Ht' & Hrej').
    split; [by eauto|]. intros Honly. by rewrite Hrun, (Honly t' e').
  - intros T U E St O L inputs use progress sched s s' out HL Hrun.
    by eapply nAtATime_resolved.
Qed.

Lemma failed_lookup_rejects_generation_witness :
  {| name := "b"; fullEscapedNpmName := "b__types" |} ∈ two_typings ∧
  fetched (failing_env [1; 0])
    (getVersions_uri (failing_env [1; 0]) "b__types") = Rejected "ETIMEDOUT" ∧
  (generateRegistry (failing_env [1; 0]) two_typings () start).1
  = Rejected "ETIMEDOUT".
Proof.
  assert (Hin : {| name := "b"; fullEscapedNpmName := "b__types" |}
                ∈ two_typings) by repeat constructor.
  split; [exact Hin|]. split; [reflexivity|].
  refine (proj2 (proj1 failed_lookup_rejects_generation _ _
                   (failing_env [1; 0]) two_typings () start
                   {| name := "b"; fullEscapedNpmName := "b__types" |}
                   "ETIMEDOUT" Hin eq_refl) _).
  intros t' e' Ht'.
  repeat (apply elem_of_cons in Ht' as [->|Ht']);
    [by vm_compute|by vm_compute; intros [= <-]|by apply elem_of_nil in Ht'].
Defined.

(** C10. Whatever the typings, the options and the environment,
    [generateRegistry] is the mapper run with the limit 25 over [addEntry]:
    in every pool that run can reach there are [min 25 M] workers and at
    most 25 lookups are pending. *)
Theorem generateRegistry_limit_25 {Err Options : Type} (env : Env Err Options)
    (typings : list TypingsData) (options : Options) (w : World) :
  generateRegistry env typings options w
  = (let (r, s) :=
       nAtATime 25 typings (addEntry env) (Some (registryProgress options))
         (schedule env) (w, ∅) in
     match r with
     | Resolved _ => (Resolved {| entries := s.2 |}, s.1)
     | Rejected e => (Rejected e, s.1)
     end) ∧
  ∀ p, reachable 25 typings (addEntry env) (Some (registryProgress options))
         (w, ∅) p →
       length (workers p) = 25 `min` length typings ∧ pending p ≤ 25.
Proof.
  split_and!.
  - unfold generateRegistry.
    destruct (nAtATime _ _ _ _ _ _) as [[r|e] [w' ents]]; done.
  - intros p Hp. apply inv_reachable in Hp.
    split; [apply (inv_workers _ _ _ _ Hp)|by eapply pending_le].
Qed.

(** ** Runs of [main] *)

Lemma generateRegistry_cases {Err Options : Type} (env : Env Err Options)
    typings options w :
  (∃ e n, generateRegistry env typings options w
          = (Rejected e,
             {| trace := trace w ++ lookup_events env (take n typings);
                logged := logged w |})) ∨
  (∃ reg, generateRegistry env typings options w
          = (Resolved reg,
             {| trace := trace w ++ lookup_events env typings;
                logged := logged w |})).
Proof.
  destruct (generateRegistry_world env typings options w)
    as (n & Htr & Hlg & Hn).
  destruct (generateRegistry env typings options w) as [[reg|e] [tr lg]];
    simpl in *; subst.
  - right. exists reg. rewrite (Hn reg eq_refl), take_ge by done. done.
  - left. by exists e, n.
Qed.

(** Symbolic execution of a run: unfold the asynchronous functions and split
    on how each collaborator settles, innermost call first. *)
Ltac settle_calls env :=
  repeat (
    cbn -[generateRegistry generatePackageJson lookup_events output_writes];
    match goal with
    | |- context [generateRegistry env ?t ?o ?w] =>
        let H := fresh "Hreg" in
        pose proof (generateRegistry_cases env t o w) as H;
        destruct H as [(? & ? & H)|(? & H)]; rewrite H
    | |- context [match ?x with _ => _ end] =>
        lazymatch x with
        | context [match _ with _ => _ end] => fail
        | context [generateRegistry] => fail
        | _ => destruct x eqn:?
        end
    end);
  repeat match goal with u : unit |- _ => destruct u end.

Create HintDb run_db.
#[local] Hint Unfold main generateAndPublishRegistry generate publish bind log
  logResult readAdditions readTypings fetchLastPatchNumber clearOutputPath
  writeOutputFile writeJson writeLog call emit start announced prepared
  : run_db.

Ltac run env := autounfold with run_db; settle_calls env.

(** Take a membership in a trace apart. *)
Ltac member H :=
  repeat first
    [ apply elem_of_nil in H; destruct H
    | apply elem_of_cons in H as [?|H]
    | apply elem_of_app in H as [H|H]
    | apply list_elem_of_fmap in H as (? & ? & H) ];
  simplify_eq.

(** ** Numbers *)

(** An integer up to [2^53] in magnitude is a double. *)
Lemma round_double_exact (z : Z) :
  (Z.abs z ≤ 2 ^ 53)%Z → round_double z = z.
Proof.
  intros Hz. unfold round_double. case_bool_decide as Hlt; [done|].
  assert (z = 2 ^ 53 ∨ z = - 2 ^ 53)%Z as [-> | ->] by lia; by vm_compute.
Qed.

(** Below [2^53], adding one is exact. *)
Lemma number_add_safe (n : Z) :
  (- 2 ^ 53 ≤ n < 2 ^ 53)%Z → number_add n 1 = (n + 1)%Z.
Proof. intros Hn. unfold number_add. apply round_double_exact. lia. Qed.

Section Version.
Context {Err Options : Type}.
Variable env : Env Err Options.

(** The version of the manifest made from a last patch number below
    [2^53]. *)
Lemma version_safe (last : Z) :
  (- 2 ^ 53 ≤ last < 2 ^ 53)%Z →
  version (generatePackageJson env (number_add last 1))
  = "0.1." +:+ pretty (last + 1)%Z.
Proof.
  intros Hn. rewrite number_add_safe by done.
  unfold generatePackageJson, number_to_string. cbn [version].
  by rewrite bool_decide_true by lia.
Qed.

End Version.

Section MainFacts.
Context {Err Options : Type}.
Variable env : Env Err Options.

Lemma empty_run (dry : bool) :
  additions env = Resolved [] →
  ∃ lines,
    main env dry start
    = (log_written env "publish-registry.md" lines,
       {| trace := [ReadAdditions; WriteLog "publish-registry.md" lines];
          logged := lines |}).
Proof.
  intros Hadd. eexists.
  unfold main, bind, log, logResult, readAdditions, writeLog, call, emit,
    start. simpl. by rewrite Hadd.
Qed.

(** C8. When [readAdditions] resolves with an empty collection, the run
    makes two calls only, the read of the additions and the write of the
    run log with the two messages logged: no output path is cleared, no
    file of the package is written, nothing is looked up and nothing is
    published. *)
Theorem no_additions_only_logs (dry : bool) :
  additions env = Resolved [] →
  let lines := ["=== Publishing types-registry ===";
                "No new packages published, so no need to publish new registry."] in
  main env dry start
  = (log_written env "publish-registry.md" lines,
     {| trace := [ReadAdditions; WriteLog "publish-registry.md" lines];
        logged := lines |}) ∧
  ∀ e, e ∈ trace (main env dry start).2 →
       is_output_write e = false ∧ is_publish e = false ∧
       e ≠ NpmClientCreate ∧ e ≠ ReadTypings ∧
       (∀ uri retries, e ≠ FetchJson uri retries) ∧
       (∀ pkg, e ≠ FetchLastPatchNumber pkg).
Proof.
  intros Hadd lines.
  assert (Hrun : main env dry start
    = (log_written env "publish-registry.md" lines,
       {| trace := [ReadAdditions; WriteLog "publish-registry.md" lines];
          logged := lines |})).
  { unfold main, bind, log, logResult, readAdditions, writeLog, call, emit,
      start. simpl. by rewrite Hadd. }
  split; [done|]. rewrite Hrun. simpl. intros e He. member He; by split_and!.
Qed.

(** The shape of a run in which the publish client is called. *)
Lemma publish_shape (dry : bool) dir p d :
  ClientPublish dir p d ∈ trace (main env dry start).2 →
  ∃ added typings last reg post,
    additions env = Resolved added ∧
    typings_read env = Resolved typings ∧
    last_patch env packageName = Resolved last ∧
    dir = registryOutputPath env ∧ p = generatePackageJson env (number_add last 1) ∧
    d = dry ∧
    (cleared env dir).2 = Resolved () ∧
    written env (joinPaths env dir "package.json") (Manifest p)
    = Resolved () ∧
    (∃ w1, (generateRegistry env typings (Options_defaults env) w1).1
           = Resolved reg) ∧
    written env (joinPaths env dir "index.json") (Index reg) = Resolved () ∧
    written env (joinPaths env dir "README.md") (Text readme) = Resolved () ∧
    client_created env = Resolved () ∧
    trace (main env dry start).2
    = [ReadAdditions; ReadTypings; FetchLastPatchNumber packageName]
      ++ generation_events env typings p reg
      ++ [NpmClientCreate; ClientPublish dir p dry] ++ post ∧
    ∀ e, e ∈ post → is_publish e = false.
Proof.
  revert dir p d. run env; intros dir p d Hin; cbn in Hin; member Hin.
  all: eexists _, _, _, _, _.
  all: do 12 (split; [first [done | by eexists; rewrite Hreg]|]).
  all: split;
    [cbn; unfold generation_events; rewrite <- ?app_assoc; reflexivity|].
  all: intros ev Hev; member Hev; done.
Qed.

(** [main], past the check for additions. *)
Lemma main_with_additions (dry : bool) added :
  additions env = Resolved added → length added ≠ 0 →
  main env dry start
  = match generateAndPublishRegistry env (Options_defaults env) dry
            (announced env added) with
    | (Resolved _, w') =>
        (log_written env "publish-registry.md" (logged w'),
         emit (WriteLog "publish-registry.md" (logged w')) w')
    | (Rejected e, w') => (Rejected e, w')
    end.
Proof.
  intros Hadd Hlen.
  unfold main, bind, log, logResult, readAdditions, writeLog, call, emit,
    start, announced.
  cbn -[generateAndPublishRegistry]. rewrite Hadd.
  destruct added as [|a added]; [done|].
  cbn -[generateAndPublishRegistry].
  by destruct (generateAndPublishRegistry _ _ _ _) as [[[]|e] w'].
Qed.

(** [generateAndPublishRegistry], past its two reads. *)
Lemma generateAndPublishRegistry_with_reads options (dry : bool) w typings last :
  typings_read env = Resolved typings →
  last_patch env packageName = Resolved last →
  generateAndPublishRegistry env options dry w
  = match generate env typings (generatePackageJson env (number_add last 1)) options
            (emit (FetchLastPatchNumber packageName) (emit ReadTypings w)) with
    | (Resolved _, w') => publish env (generatePackageJson env (number_add last 1)) dry w'
    | (Rejected e, w') => (Rejected e, w')
    end.
Proof.
  intros Htyp Hlast.
  unfold generateAndPublishRegistry, bind, readTypings, fetchLastPatchNumber,
    call.
  by rewrite Htyp, Hlast.
Qed.

(** [generate] only clears, writes and looks up. *)
Lemma generate_calls typings pj options w ev :
  ev ∈ trace (generate env typings pj options w).2 →
  ev ∈ trace w ∨ is_output_write ev = true ∨ ∃ uri, ev = FetchJson uri true.
Proof.
  run env; intros Hin; cbn in Hin; member Hin; eauto.
Qed.

(** [generateAndPublishRegistry] does not write the run log. *)
Lemma generateAndPublishRegistry_calls options (dry : bool) w ev :
  ev ∈ trace (generateAndPublishRegistry env options dry w).2 →
  ev ∈ trace w ∨ ∀ file lines, ev ≠ WriteLog file lines.
Proof.
  run env; intros Hin; cbn in Hin; member Hin; eauto.
Qed.

(** C5. A call to the publish client is found in a run only after a whole
    generation: the output path was cleared, [package.json], [index.json]
    and [README.md] were written, in this order, the lookups in between,
    and each of these calls resolved; the client is then created and asked
    once to publish the directory and the manifest just generated. And when
    generation rejects, the run rejects with it, and neither is a client
    created nor anything published. *)
Theorem publish_only_after_generation (dry : bool) :
  (∀ dir p d,
     ClientPublish dir p d ∈ trace (main env dry start).2 →
     ∃ added typings last reg post,
       additions env = Resolved added ∧
       typings_read env = Resolved typings ∧
       last_patch env packageName = Resolved last ∧
       dir = registryOutputPath env ∧ p = generatePackageJson env (number_add last 1) ∧
       d = dry ∧
       (cleared env dir).2 = Resolved () ∧
       written env (joinPaths env dir "package.json") (Manifest p)
       = Resolved () ∧
       (∃ w1, (generateRegistry env typings (Options_defaults env) w1).1
              = Resolved reg) ∧
       written env (joinPaths env dir "index.json") (Index reg)
       = Resolved () ∧
       written env (joinPaths env dir "README.md") (Text readme)
       = Resolved () ∧
       client_created env = Resolved () ∧
       trace (main env dry start).2
       = [ReadAdditions; ReadTypings; FetchLastPatchNumber packageName]
         ++ generation_events env typings p reg
         ++ [NpmClientCreate; ClientPublish dir p dry] ++ post ∧
       ∀ e, e ∈ post → is_publish e = false) ∧
  (∀ added typings last e,
     additions env = Resolved added → length added ≠ 0 →
     typings_read env = Resolved typings →
     last_patch env packageName = Resolved last →
     (generate env typings (generatePackageJson env (number_add last 1))
        (Options_defaults env) (prepared env added)).1 = Rejected e →
     (main env dry start).1 = Rejected e ∧
     ∀ ev, ev ∈ trace (main env dry start).2 →
           is_publish ev = false ∧ ev ≠ NpmClientCreate).
Proof.
  split; [apply publish_shape|].
  intros added typings last e Hadd Hlen Htyp Hlast Hgen.
  rewrite (main_with_additions dry added Hadd Hlen).
  rewrite (generateAndPublishRegistry_with_reads _ dry _ typings last Htyp Hlast).
  fold (prepared env added).
  pose proof (generate_calls typings (generatePackageJson env (number_add last 1))
                (Options_defaults env) (prepared env added)) as Hcalls.
  destruct (generate env typings _ _ _) as [[u|e'] wg]; simpl in Hgen;
    simplify_eq.
  split; [done|]. intros ev Hev. simpl in Hev.
  destruct (Hcalls ev Hev) as [Hin|[Hw|[uri ->]]].
  - cbn in Hin. member Hin; done.
  - by destruct ev.
  - done.
Qed.

Lemma output_writes_cons e tr :
  output_writes (e :: tr)
  = if is_output_write e then e :: output_writes tr else output_writes tr.
Proof.
  unfold output_writes. rewrite filter_cons.
  destruct (is_output_write e); case_decide; simpl in *; done.
Qed.

Lemma output_writes_app tr1 tr2 :
  output_writes (tr1 ++ tr2) = output_writes tr1 ++ output_writes tr2.
Proof. apply filter_app. Qed.

Lemma output_writes_lookup_events typings :
  output_writes (lookup_events env typings) = [].
Proof.
  unfold lookup_events. induction typings as [|t l IH]; [done|].
  by rewrite fmap_cons, output_writes_cons.
Qed.

(** C6 (amended). When the patch-number lookup for [types-registry]
    resolves with an integer [lastPatch] with [-2^53 ≤ lastPatch < 2^53],
    every manifest a run writes or hands to the publish client has the
    version ["0.1."] followed by [lastPatch + 1] in decimal; and such a
    manifest is written to [package.json] as soon as there are additions,
    the typings are read and the output path is cleared. *)
Theorem manifest_version (dry : bool) (lastPatch : Z) :
  last_patch env packageName = Resolved lastPatch →
  (- 2 ^ 53 ≤ lastPatch < 2 ^ 53)%Z →
  (∀ ev p, ev ∈ trace (main env dry start).2 → manifest_of ev = Some p →
           version p = "0.1." +:+ pretty (lastPatch + 1)%Z) ∧
  (∀ added typings,
     additions env = Resolved added → length added ≠ 0 →
     typings_read env = Resolved typings →
     (cleared env (registryOutputPath env)).2 = Resolved () →
     ∃ p, WriteJson (joinPaths env (registryOutputPath env) "package.json")
            (Manifest p) ∈ trace (main env dry start).2 ∧
          version p = "0.1." +:+ pretty (lastPatch + 1)%Z).
Proof.
  intros Hlast Hsafe. split.
  - run env; intros ev p Hin Hm; cbn in Hin; member Hin;
      cbn [manifest_of] in Hm; simplify_eq; by apply version_safe.
  - intros added typings Hadd Hlen Htyp Hcl. revert Hadd Hlen Htyp Hcl.
    run env; intros Hadd Hlen Htyp Hcl; simplify_eq/=.
    all: try match goal with
             | H : negb (_ =? 0) = false |- _ =>
                 apply negb_false_iff, Nat.eqb_eq in H; done
             end.
    all: exists (generatePackageJson env (number_add lastPatch 1));
      split; [|by apply version_safe].
    all: rewrite ?elem_of_cons, ?elem_of_app, ?elem_of_cons; eauto 10.
Qed.

(** What [generate] has done when it resolves: the calls of a whole
    generation. *)
Lemma generate_resolved_trace typings pj options w w' :
  generate env typings pj options w = (Resolved (), w') →
  ∃ reg w1,
    (generateRegistry env typings options w1).1 = Resolved reg ∧
    trace w' = trace w ++ generation_events env typings pj reg.
Proof.
  run env; intros [=]; subst.
  eexists _, _. split; [by rewrite Hreg|].
  cbn. unfold generation_events. by rewrite <- !app_assoc.
Qed.

(** C7. In a run of [main] with [dry = true], the publish client is only
    ever called with the dry-run flag set; the calls that clear the output
    path and write the files of the package are those of the run with
    [dry = false]; when there are additions and the steps before it
    resolve, the publish client is called, with the flag set; and when
    there are additions and the typings and the last patch number are read,
    the dry run does clear the output path, and if generation resolves it
    has cleared the output path and written [package.json] with the
    manifest, [index.json] with the registry generated and [README.md], in
    this order and nothing else. *)
Theorem dry_run_publishes_dry :
  (∀ dir p d, ClientPublish dir p d ∈ trace (main env true start).2 →
              d = true) ∧
  output_writes (trace (main env true start).2)
  = output_writes (trace (main env false start).2) ∧
  (∀ added typings last,
     additions env = Resolved added → length added ≠ 0 →
     typings_read env = Resolved typings →
     last_patch env packageName = Resolved last →
     (generate env typings (generatePackageJson env (number_add last 1))
        (Options_defaults env) (prepared env added)).1 = Resolved () →
     client_created env = Resolved () →
     ClientPublish (registryOutputPath env)
       (generatePackageJson env (number_add last 1)) true
     ∈ trace (main env true start).2) ∧
  (∀ added typings last,
     additions env = Resolved added → length added ≠ 0 →
     typings_read env = Resolved typings →
     last_patch env packageName = Resolved last →
     ClearOutputPath (registryOutputPath env)
     ∈ trace (main env true start).2 ∧
     ((generate env typings (generatePackageJson env (number_add last 1))
         (Options_defaults env) (prepared env added)).1 = Resolved () →
      ∃ reg w1,
        (generateRegistry env typings (Options_defaults env) w1).1
        = Resolved reg ∧
        output_writes (trace (main env true start).2)
        = [ClearOutputPath (registryOutputPath env);
           WriteJson (joinPaths env (registryOutputPath env) "package.json")
             (Manifest (generatePackageJson env (number_add last 1)));
           WriteJson (joinPaths env (registryOutputPath env) "index.json")
             (Index reg);
           WriteJson (joinPaths env (registryOutputPath env) "README.md")
             (Text readme)])).
Proof.
  split_and!.
  - intros dir p d Hin.
    by destruct (publish_shape true dir p d Hin)
      as (? & ? & ? & ? & ? & _ & _ & _ & _ & _ & -> & _).
  - run env;
      repeat (rewrite ?output_writes_cons, ?output_writes_app,
                ?output_writes_lookup_events;
              cbn [is_output_write trace snd]);
      reflexivity.
  - intros added typings last Hadd Hlen Htyp Hlast Hgen Hcc.
    rewrite (main_with_additions true added Hadd Hlen).
    rewrite (generateAndPublishRegistry_with_reads _ true _ typings last
               Htyp Hlast).
    fold (prepared env added).
    destruct (generate env typings _ _ _) as [[[]|e'] wg]; simpl in Hgen;
      simplify_eq.
    unfold publish, bind, call. rewrite Hcc. simpl.
    destruct (published env _ _ _) as [[]|e]; simpl;
      rewrite ?elem_of_app, ?elem_of_cons; eauto 10.
  - intros added typings last Hadd Hlen Htyp Hlast. split.
    + revert Hadd Hlen Htyp Hlast.
      run env; intros Hadd Hlen Htyp Hlast; simplify_eq/=.
      all: try match goal with
               | H : negb (_ =? 0) = false |- _ =>
                   apply negb_false_iff, Nat.eqb_eq in H; done
               end.
      all: rewrite ?elem_of_cons, ?elem_of_app, ?elem_of_cons; eauto 10.
    + intros Hgen.
      rewrite (main_with_additions true added Hadd Hlen).
      rewrite (generateAndPublishRegistry_with_reads _ true _ typings last
                 Htyp Hlast).
      fold (prepared env added).
      destruct (generate env typings _ _ _) as [[[]|e'] wg] eqn:Hg;
        simpl in Hgen; simplify_eq.
      destruct (generate_resolved_trace _ _ _ _ _ Hg)
        as (reg & w1 & Hreg & Htr).
      exists reg, w1. split; [done|].
      unfold publish, bind, call, emit.
      destruct (client_created env) as [[]|?];
        [destruct (published env _ _ _) as [[]|?]|];
        cbn [fst snd trace]; rewrite Htr; unfold generation_events;
        repeat (rewrite ?output_writes_cons, ?output_writes_app,
                  ?output_writes_lookup_events;
                cbn [is_output_write trace prepared announced emit app]);
        reflexivity.
Qed.

(** C9. The run log [publish-registry.md] is written exactly when the run
    gets to its last step: the additions were read, and either there were
    none or generating and publishing the registry resolved. In particular
    a run whose generation or publishing rejects writes no log. *)
Theorem run_log_written_iff (dry : bool) :
  (∃ lines, WriteLog "publish-registry.md" lines
            ∈ trace (main env dry start).2) ↔
  (∃ added, additions env = Resolved added ∧
     (length added = 0 ∨
      (generateAndPublishRegistry env (Options_defaults env) dry
         (announced env added)).1 = Resolved ())).
Proof.
  destruct (additions env) as [added|e] eqn:Hadd.
  2: { split.
       - intros [lines Hin]. revert Hin.
         run env; intros Hin; simplify_eq; cbn in Hin; member Hin.
       - by intros (added & [=] & _). }
  destruct (decide (length added = 0)) as [Hlen|Hlen].
  { split; [by eauto|]. intros _.
    destruct added; [|done].
    destruct (empty_run dry Hadd) as [lines Hrun].
    exists lines. rewrite Hrun. simpl. rewrite !elem_of_cons. eauto. }
  rewrite (main_with_additions dry added Hadd Hlen).
  pose proof (generateAndPublishRegistry_calls (Options_defaults env) dry
                (announced env added)) as Hcalls.
  destruct (generateAndPublishRegistry _ _ _ _) as [[[]|e] w'] eqn:Hg.
  - split.
    + intros _. exists added. split; [done|]. right. by rewrite Hg.
    + intros _. exists (logged w'). simpl.
      rewrite elem_of_app, elem_of_cons. eauto.
  - split.
    + intros [lines Hin]. simpl in Hin.
      destruct (Hcalls _ Hin) as [Hold|Hnot].
      * cbn in Hold. member Hold.
      * by destruct (Hnot "publish-registry.md" lines).
    + intros (added' & [= <-] & [?|Hres]); [done|]. by rewrite Hg in Hres.
Qed.

End MainFacts.

(** ** The properties at sample runs *)

Lemma nAtATime_maps_in_order_witness :
  (∀ x (s : unit), x ∈ [1; 2; 3] → (settle doubling x s).1 = Resolved (2 * x)) ∧
  1 ≤ 2 ∧
  ∃ out s',
    nAtATime 2 [1; 2; 3] doubling (@None (@ProgressConfig nat unit)) [1; 0; 1] ()
    = (Resolved out, s') ∧
    length out = length [1; 2; 3] ∧
    ∀ i x, [1; 2; 3] !! i = Some x → out !! i = Some (Some (2 * x)).
Proof.
  assert (H : ∀ x (s : unit), x ∈ [1; 2; 3] →
                (settle doubling x s).1 = Resolved (2 * x)) by done.
  assert (HL : 1 ≤ 2) by lia.
  split; [exact H|]. split; [exact HL|].
  exact (proj1 (nAtATime_maps_in_order 2 [1; 2; 3] doubling None
                  (λ x, 2 * x) H [1; 0; 1] () HL)).
Defined.

Lemma nAtATime_bounded_witness :
  1 ≤ 2 ∧ 2 ≤ length [1; 2; 3] ∧
  reachable 2 [1; 2; 3] doubling (@None (@ProgressConfig nat unit)) ()
    sample_pool ∧
  pending sample_pool ≤ 2 ∧
  invoked sample_pool = seq 0 (nextIndex sample_pool) ∧
  NoDup (invoked sample_pool).
Proof.
  assert (H1 : 1 ≤ 2) by lia.
  assert (H2 : 2 ≤ length [1; 2; 3]) by (simpl; lia).
  assert (H3 : reachable 2 [1; 2; 3] doubling
                 (@None (@ProgressConfig nat unit)) () sample_pool)
    by apply drive_steps.
  destruct (nAtATime_bounded 2 [1; 2; 3] doubling None () sample_pool
              H1 H2 H3) as (Hp & Hi & Hn & _).
  by split_and!.
Defined.

Lemma publish_only_after_generation_witness :
  ClientPublish "output/types-registry" (generatePackageJson (two_env ["b"] [1; 0]) 42) false
    ∈ trace (main (two_env ["b"] [1; 0]) false start).2 ∧
  ∃ reg post,
    trace (main (two_env ["b"] [1; 0]) false start).2
    = [ReadAdditions; ReadTypings; FetchLastPatchNumber packageName]
      ++ generation_events (two_env ["b"] [1; 0]) two_typings
           (generatePackageJson (two_env ["b"] [1; 0]) 42) reg
      ++ [NpmClientCreate;
          ClientPublish "output/types-registry" (generatePackageJson (two_env ["b"] [1; 0]) 42) false]
      ++ post.
Proof.
  assert (H : ClientPublish "output/types-registry" (generatePackageJson (two_env ["b"] [1; 0]) 42)
                false ∈ trace (main (two_env ["b"] [1; 0]) false start).2).
  { vm_compute. repeat constructor. }
  split; [exact H|].
  destruct (proj1 (publish_only_after_generation (two_env ["b"] [1; 0]) false)
              _ _ _ H)
    as (added & typings & last & reg & post & _ & Ht & Hl & _ & _ & _ & _ & _
        & _ & _ & _ & _ & Htr & _).
  injection Ht as <-. injection Hl as <-.
  exists reg, post. exact Htr.
Defined.

Lemma manifest_version_witness :
  last_patch (two_env ["b"] [1; 0]) packageName = Resolved 41%Z ∧
  (- 2 ^ 53 ≤ 41 < 2 ^ 53)%Z ∧
  ∀ ev p, ev ∈ trace (main (two_env ["b"] [1; 0]) true start).2 →
          manifest_of ev = Some p → version p = "0.1.42".
Proof.
  assert (H : (- 2 ^ 53 ≤ 41 < 2 ^ 53)%Z) by lia.
  split; [reflexivity|]. split; [exact H|].
  exact (proj1 (manifest_version (two_env ["b"] [1; 0]) true 41 eq_refl H)).
Defined.

(** C6, as stated, fails at [lastPatch = 2^53]: the sum [2^53 + 1] is not a
    double and is rounded to [2^53], so the manifest written has the version
    [0.1.9007199254740992], which is ["0.1."] followed by [lastPatch] and
    not by [lastPatch + 1]. *)
Lemma manifest_version_rounds :
  last_patch large_env packageName = Resolved (2 ^ 53)%Z ∧
  ∃ p, WriteJson "output/types-registry/package.json" (Manifest p)
         ∈ trace (main large_env false start).2 ∧
       ClientPublish "output/types-registry" p false
         ∈ trace (main large_env false start).2 ∧
       version p = "0.1.9007199254740992" ∧
       version p = "0.1." +:+ pretty (2 ^ 53)%Z ∧
       version p ≠ "0.1." +:+ pretty (2 ^ 53 + 1)%Z.
Proof.
  split; [reflexivity|].
  exists (generatePackageJson large_env (number_add (2 ^ 53) 1)).
  split_and!.
  - vm_compute. repeat constructor.
  - vm_compute. repeat constructor.
  - by vm_compute.
  - by vm_compute.
  - by vm_compute.
Defined.

Lemma dry_run_publishes_dry_witness :
  ClientPublish "output/types-registry"
    (generatePackageJson (two_env ["b"] [1; 0]) 42) true
    ∈ trace (main (two_env ["b"] [1; 0]) true start).2 ∧
  ClearOutputPath "output/types-registry"
    ∈ trace (main (two_env ["b"] [1; 0]) true start).2.
Proof.
  assert (Hlen : length ["b"] ≠ 0) by (simpl; lia).
  assert (Hgen : (generate (two_env ["b"] [1; 0]) two_typings
                    (generatePackageJson (two_env ["b"] [1; 0])
                       (number_add 41 1)) ()
                    (prepared (two_env ["b"] [1; 0]) ["b"])).1 = Resolved ())
    by by vm_compute.
  destruct (dry_run_publishes_dry (two_env ["b"] [1; 0]))
    as (_ & _ & Hpub & Hclear).
  split.
  - exact (Hpub ["b"] two_typings 41%Z eq_refl Hlen eq_refl eq_refl Hgen
             eq_refl).
  - exact (proj1 (Hclear ["b"] two_typings 41%Z eq_refl Hlen eq_refl
                    eq_refl)).
Defined.

Lemma no_additions_only_logs_witness :
  additions (two_env [] []) = Resolved [] ∧
  trace (main (two_env [] []) false start).2
  = [ReadAdditions;
     WriteLog "publish-registry.md"
       ["=== Publishing types-registry ===";
        "No new packages published, so no need to publish new registry."]].
Proof.
  split; [reflexivity|].
  destruct (no_additions_only_logs (two_env [] []) false eq_refl) as [H _].
  by rewrite H.
Defined.

Lemma run_log_written_iff_witness :
  ∃ lines, WriteLog "publish-registry.md" lines
           ∈ trace (main (two_env ["b"] [1; 0]) false start).2.
Proof.
  apply (proj2 (run_log_written_iff (two_env ["b"] [1; 0]) false)).
  exists ["b"]. split; [reflexivity|]. right. by vm_compute.
Defined.

Lemma generateRegistry_limit_25_witness :
  pending (final_pool (two_env ["b"] [1; 0]) two_typings () start) ≤ 25.
Proof.
  apply (proj2 (generateRegistry_limit_25 (two_env ["b"] [1; 0]) two_typings
                  () start)).
  apply drive_steps.
Defined.

(** * Further properties of the code *)

(** ** [pick] *)

Lemma pick_sub_dom {V} (obj : gmap string V) (keys : list string) :
  pick obj keys ⊆ obj ∧
  dom (pick obj keys) = (dom obj ∩ list_to_set keys) ∖ {["__proto__"]}.
Proof.
  split.
  - apply map_subseteq_spec. intros k v. rewrite lookup_pick.
    by case_bool_decide.
  - apply set_eq. intros k.
    rewrite elem_of_difference, elem_of_intersection, !elem_of_dom,
      elem_of_list_to_set, elem_of_singleton, lookup_pick.
    case_bool_decide as Hk; [tauto|].
    split; [by intros [? ?]|]. intros [[? ?] ?]. destruct Hk. done.
Qed.

(** X1. [pick] never invents or alters a property: what it returns is a
    sub-object of [obj], and its keys are exactly the keys of [obj] that are
    listed in [keys], but for ["__proto__"], which is never a key of what
    [pick] returns. *)
Theorem pick_keeps_listed {V} (obj : gmap string V) (keys : list string) :
  pick obj keys ⊆ obj ∧
  dom (pick obj keys) = (dom obj ∩ list_to_set keys) ∖ {["__proto__"]} ∧
  pick obj keys !! "__proto__" = None.
Proof.
  destruct (pick_sub_dom obj keys) as [Hsub Hdom]. split_and!; [done..|].
  rewrite lookup_pick. case_bool_decide as Hk; [by destruct Hk|done].
Qed.

(** X2. Only the set of listed keys matters to [pick], not their order nor
    how often a key is listed. *)
Theorem pick_keys_ext {V} (obj : gmap string V) (keys1 keys2 : list string) :
  (∀ k, k ∈ keys1 ↔ k ∈ keys2) → pick obj keys1 = pick obj keys2.
Proof.
  intros Hk. apply map_eq. intros k. rewrite !lookup_pick.
  specialize (Hk k). repeat case_bool_decide; tauto || done.
Qed.

Lemma pick_keys_ext_witness :
  (∀ k, k ∈ ["latest"; "ts2.8"] ↔ k ∈ ["ts2.8"; "latest"; "latest"]) ∧
  pick (dist_tags {[ "dist-tags" := {[ "latest" := "1.0.0"; "beta" := "2.0.0" ]} ]})
    ["latest"; "ts2.8"]
  = pick (dist_tags {[ "dist-tags" := {[ "latest" := "1.0.0"; "beta" := "2.0.0" ]} ]})
      ["ts2.8"; "latest"; "latest"].
Proof.
  assert (H : ∀ k : string,
            k ∈ ["latest"; "ts2.8"] ↔ k ∈ ["ts2.8"; "latest"; "latest"]).
  { intros k. rewrite !elem_of_cons, !elem_of_nil. tauto. }
  split; [exact H|]. exact (pick_keys_ext _ _ _ H).
Defined.

(** X3. On an object without a property ["__proto__"], picking twice keeps
    the keys listed both times, so two picks commute and a repeated pick
    changes nothing. *)
Theorem pick_pick {V} (obj : gmap string V) (keys1 keys2 : list string) :
  obj !! "__proto__" = None →
  pick (pick obj keys1) keys2 = pick obj (filter (.∈ keys2) keys1) ∧
  pick (pick obj keys1) keys2 = pick (pick obj keys2) keys1 ∧
  pick (pick obj keys1) keys1 = pick obj keys1.
Proof.
  intros _.
  split_and!; apply map_eq; intros k; rewrite !lookup_pick.
  - rewrite (bool_decide_ext (k ∈ filter (.∈ keys2) keys1 ∧ k ≠ "__proto__")
               ((k ∈ keys2 ∧ k ∈ keys1) ∧ k ≠ "__proto__"))
      by (by rewrite (list_elem_of_filter (.∈ keys2))).
    repeat case_bool_decide; tauto || done.
  - repeat case_bool_decide; done.
  - repeat case_bool_decide; done.
Qed.

(** X4. [pick] returns the object unchanged exactly when every key of the
    object is listed and none is ["__proto__"], and the empty object
    exactly when no key of the object but ["__proto__"] is listed. *)
Theorem pick_all_or_nothing {V} (obj : gmap string V) (keys : list string) :
  (pick obj keys = obj ↔
   ∀ k, is_Some (obj !! k) → k ∈ keys ∧ k ≠ "__proto__") ∧
  (pick obj keys = ∅ ↔
   ∀ k, is_Some (obj !! k) → k ∉ keys ∨ k = "__proto__").
Proof.
  split; split.
  - intros Heq k Hk. rewrite <- Heq, lookup_pick in Hk.
    case_bool_decide; [done|]. by destruct Hk.
  - intros Hall. apply map_eq. intros k. rewrite lookup_pick.
    case_bool_decide as Hk; [done|].
    destruct (obj !! k) eqn:Hobj; [|done]. destruct Hk. apply Hall.
    by rewrite Hobj.
  - intros Heq k Hk.
    assert (Hl : pick obj keys !! k = None) by by rewrite Heq, lookup_empty.
    rewrite lookup_pick in Hl. case_bool_decide as Hin.
    + rewrite Hl in Hk. by destruct Hk.
    + destruct (decide (k = "__proto__")); [by right|]. left. tauto.
  - intros Hnone. apply map_empty. intros k. rewrite lookup_pick.
    case_bool_decide as Hk; [|done].
    destruct (obj !! k) eqn:Hobj; [|done].
    destruct (Hnone k) as [?|?]; [by rewrite Hobj|tauto..].
Qed.

(** X6. What [pick] returns has at most as many properties as the object
    and at most as many as there are listed keys. *)
Theorem pick_size {V} (obj : gmap string V) (keys : list string) :
  size (pick obj keys) ≤ size obj ∧ size (pick obj keys) ≤ length keys.
Proof.
  destruct (pick_sub_dom obj keys) as [Hsub Hdom]. split.
  - by apply map_subseteq_size.
  - rewrite <- (size_dom (D := gset string)), Hdom.
    etrans; [apply (subseteq_size _ (list_to_set (remove_dups keys)))|].
    + intros k. rewrite elem_of_difference, elem_of_intersection,
        !elem_of_list_to_set, elem_of_remove_dups. tauto.
    + rewrite size_list_to_set by apply NoDup_remove_dups.
      clear. induction keys as [|k keys IH]; simpl; [done|].
      case_match; simpl; lia.
Qed.

(** ** [generatePackageJson] *)

(** X7. For patch numbers up to [2^53] in magnitude, the version of a
    manifest tells its patch number: two such patch numbers give the same
    version, and the same manifest, only if they are equal. *)
Theorem generatePackageJson_version_inj {Err Options : Type}
    (env : Env Err Options) (p q : Z) :
  (Z.abs p ≤ 2 ^ 53)%Z → (Z.abs q ≤ 2 ^ 53)%Z →
  (version (generatePackageJson env p) = version (generatePackageJson env q)
   ↔ p = q) ∧
  (generatePackageJson env p = generatePackageJson env q ↔ p = q).
Proof.
  intros Hp Hq.
  assert (Hinj : version (generatePackageJson env p)
                 = version (generatePackageJson env q) → p = q).
  { unfold generatePackageJson, number_to_string. cbn [version].
    rewrite !bool_decide_true by done.
    intros Hv. apply (inj pretty). by simplify_eq/=. }
  split; split.
  - done.
  - by intros ->.
  - intros Heq. apply Hinj. by rewrite Heq.
  - by intros ->.
Qed.

(** ** Registry generation, further *)

Section RegistryMore.
Context {Err Options : Type}.
Variable env : Env Err Options.

Lemma generateRegistry_resolved_lookups typings options w reg w' :
  generateRegistry env typings options w = (Resolved reg, w') →
  ∀ t, t ∈ typings → ∃ info, looked_up env t info.
Proof.
  rewrite generateRegistry_final.
  destruct (failure (final_pool env typings options w)) eqn:Hf; [done|].
  intros _ t [i Ht]%list_elem_of_lookup_1.
  destruct (final_pool_success env typings options w Hf) as [_ Hres].
  destruct (Hres i t Ht) as [_ [v Hv]]. unfold getVersions_settle in Hv.
  unfold looked_up. destruct (fetched env _); [eauto|done].
Qed.

Lemma generateRegistry_resolved_sound typings options w reg w' :
  generateRegistry env typings options w = (Resolved reg, w') →
  (∀ k, is_Some (entries reg !! k) ↔
        k ≠ "__proto__" ∧ ∃ t, t ∈ typings ∧ name t = k) ∧
  (∀ k v, entries reg !! k = Some v →
     ∃ t info, t ∈ typings ∧ name t = k ∧ looked_up env t info ∧
       v = pick (dist_tags info) (allVersionTags env)) ∧
  (NoDup (name <$> typings) →
   ∀ t info, t ∈ typings → name t ≠ "__proto__" → looked_up env t info →
     entries reg !! name t
     = Some (pick (dist_tags info) (allVersionTags env))).
Proof.
  intros Hrun.
  destruct (generateRegistry_resolves env typings options w
              (generateRegistry_resolved_lookups _ _ _ _ _ Hrun))
    as (reg' & w'' & Hrun' & H).
  rewrite Hrun in Hrun'. by simplify_eq.
Qed.

(** X8. With no typings, registry generation resolves at once with an index
    without entries: nothing is looked up and the world is left as it
    was. *)
Theorem generateRegistry_empty options w :
  generateRegistry env [] options w = (Resolved {| entries := ∅ |}, w).
Proof. reflexivity. Qed.

(** X9. Whenever registry generation resolves, every lookup has succeeded
    and the index lists the typings; the lookups of all the typings, in
    the order of the typings and each with retries, are the only calls it
    has made, and it has logged nothing. *)
Theorem resolved_registry_lists_typings typings options w reg w' :
  generateRegistry env typings options w = (Resolved reg, w') →
  (∀ t, t ∈ typings → ∃ info, looked_up env t info) ∧
  lists env typings reg ∧
  trace w' = trace w ++ lookup_events env typings ∧
  logged w' = logged w.
Proof.
  intros Hrun. split; [by eapply generateRegistry_resolved_lookups|].
  destruct (generateRegistry_resolved_sound _ _ _ _ _ Hrun)
    as (Hdom & Hsound & Hown).
  split.
  - split_and!; [done| |].
    + intros k v Hk. destruct (Hsound k v Hk) as (t & info & ? & ? & ? & ->).
      exists t, info. split_and!; try done. intros tag. apply lookup_pick.
    + intros Hnd t info Ht Hp Hinfo. eexists. split; [by apply Hown|].
      intros tag. apply lookup_pick.
  - destruct (generateRegistry_cases env typings options w)
      as [(e & n & Hc)|(reg' & Hc)]; rewrite Hc in Hrun; by simplify_eq.
Qed.

Lemma same_key_entry typings options w reg w' t info :
  generateRegistry env typings options w = (Resolved reg, w') →
  same_name_same_key typings →
  t ∈ typings → name t ≠ "__proto__" → looked_up env t info →
  entries reg !! name t = Some (pick (dist_tags info) (allVersionTags env)).
Proof.
  intros Hrun Hsame Ht Hp Hinfo.
  destruct (generateRegistry_resolved_sound _ _ _ _ _ Hrun)
    as (Hdom & Hsound & _).
  destruct (proj2 (Hdom (name t))) as [v Hv]; [by eauto|].
  rewrite Hv. f_equal.
  destruct (Hsound _ _ Hv) as (t' & info' & Ht' & Hn & Hinfo' & ->).
  unfold looked_up in *. rewrite (Hsame t' t Ht' Ht Hn) in Hinfo'.
  congruence.
Qed.

(** X10. When typings that share a name share their lookup key, the entry
    under the name of a typing, if the name is not ["__proto__"], holds
    that typing's own [dist-tags], picked by the catalog, whichever lookup
    came back last. *)
Theorem generateRegistry_same_key typings options w reg w' t info :
  generateRegistry env typings options w = (Resolved reg, w') →
  same_name_same_key typings →
  t ∈ typings → name t ≠ "__proto__" → looked_up env t info →
  entries reg !! name t = Some (pick (dist_tags info) (allVersionTags env)).
Proof. apply same_key_entry. Qed.

(** X11. When generation resolves, a typing whose name is not
    ["__proto__"] is listed with an empty entry if the registry answer of
    every typing of its name has no [dist-tags], or none that the catalog
    knows. *)
Theorem generateRegistry_no_known_tag typings options w reg w' t :
  generateRegistry env typings options w = (Resolved reg, w') →
  t ∈ typings → name t ≠ "__proto__" →
  (∀ t' info tag,
     t' ∈ typings → name t' = name t → looked_up env t' info →
     tag ∈ allVersionTags env → dist_tags info !! tag = None) →
  entries reg !! name t = Some ∅.
Proof.
  intros Hrun Ht Hp Hnone.
  destruct (generateRegistry_resolved_sound _ _ _ _ _ Hrun)
    as (Hdom & Hsound & _).
  destruct (proj2 (Hdom (name t))) as [v Hv]; [by eauto|].
  rewrite Hv. f_equal.
  destruct (Hsound _ _ Hv) as (t' & info' & Ht' & Hn & Hinfo' & ->).
  apply map_empty. intros tag. rewrite lookup_pick.
  case_bool_decide as Hk; [|done]. destruct Hk as [Hk _]. by eapply Hnone.
Qed.

End RegistryMore.

(** X12. The index does not depend on the order in which the lookups come
    back, nor on the world or the options: when same-named typings share
    their lookup key, a generation that resolves in one environment
    resolves with the same index in any environment that answers the
    lookups alike. *)
Theorem generateRegistry_schedule_irrelevant {Err Options : Type}
    (env1 env2 : Env Err Options) typings o1 o2 w1 w2 reg w1' :
  npmRegistry env1 = npmRegistry env2 →
  allVersionTags env1 = allVersionTags env2 →
  (∀ uri, fetched env1 uri = fetched env2 uri) →
  same_name_same_key typings →
  generateRegistry env1 typings o1 w1 = (Resolved reg, w1') →
  ∃ w2', generateRegistry env2 typings o2 w2 = (Resolved reg, w2').
Proof.
  intros Hnpm Htags Hfetch Hsame Hrun1.
  assert (Hlook : ∀ t info, looked_up env1 t info ↔ looked_up env2 t info).
  { intros t info. unfold looked_up, getVersions_uri.
    by rewrite Hnpm, Hfetch. }
  pose proof (generateRegistry_resolved_lookups env1 _ _ _ _ _ Hrun1) as Hok1.
  destruct (generateRegistry_resolves env2 typings o2 w2)
    as (reg2 & w2' & Hrun2 & _).
  { intros t Ht. destruct (Hok1 t Ht) as [info Hinfo]. exists info.
    by apply Hlook. }
  exists w2'. rewrite Hrun2. do 2 f_equal.
  destruct reg as [ents1], reg2 as [ents2]. f_equal. apply map_eq. intros k.
  destruct (generateRegistry_resolved_sound env1 _ _ _ _ _ Hrun1)
    as (Hdom1 & _ & _).
  destruct (generateRegistry_resolved_sound env2 _ _ _ _ _ Hrun2)
    as (Hdom2 & _ & _).
  cbn [entries] in *.
  destruct (ents1 !! k) as [v1|] eqn:Hk1.
  - destruct (proj1 (Hdom1 k)) as (Hp & t & Ht & <-); [by rewrite Hk1|].
    destruct (Hok1 t Ht) as [info Hinfo].
    pose proof (same_key_entry env1 _ _ _ _ _ _ _
                  Hrun1 Hsame Ht Hp Hinfo) as H1.
    pose proof (same_key_entry env2 _ _ _ _ _ _ _
                  Hrun2 Hsame Ht Hp (proj1 (Hlook _ _) Hinfo)) as H2.
    cbn [entries] in *. rewrite H2, <- Htags, <- H1. done.
  - destruct (ents2 !! k) as [v2|] eqn:Hk2; [|done].
    destruct (proj2 (Hdom1 k)) as [v1 Hv1]; [|congruence].
    apply Hdom2. by rewrite Hk2.
Qed.

(** ** The progress display of the mapper *)

Section Display.
Context {T U E St O : Type}.
Variable L : nat.
Variable inputs : list T.
Variable use : @transform T U E St.
Implicit Types p : @pool U E St.
Implicit Types progress : option (@ProgressConfig T O).

Lemma fire_undisplayed progress w p :
  undisplayed <$> fire inputs use progress w p
  = undisplayed <$> fire inputs use (@None (@ProgressConfig T O)) w
                      (undisplayed p).
Proof.
  unfold fire. cbn [undisplayed workers nextIndex shared].
  destruct (workers p !! w) as [[|i| |e]|]; try done.
  - by destruct (inputs !! nextIndex p).
  - destruct (inputs !! i) as [x|]; [|done].
    by destruct (settle use x (shared p)) as [[u|e] s'].
Qed.

Lemma drive_undisplayed progress fuel sched p :
  undisplayed (drive inputs use progress fuel sched p)
  = undisplayed (drive inputs use (@None (@ProgressConfig T O)) fuel sched
                   (undisplayed p)).
Proof.
  revert progress sched p.
  induction fuel as [|k IH]; intros progress sched p; [done|].
  cbn [drive]. cbn [undisplayed failure].
  destruct (failure p); [done|].
  change (choose (hd 0 sched) (undisplayed p)) with (choose (hd 0 sched) p).
  destruct (choose (hd 0 sched) p) as [w|]; [|done]. cbn [mbind option_bind].
  pose proof (fire_undisplayed progress w p) as Hf.
  destruct (fire inputs use progress w p) as [p1|],
    (fire inputs use None w (undisplayed p)) as [p2|]; try done.
  assert (Heq : undisplayed p1 = undisplayed p2).
  { change (Some (undisplayed p1) = Some (undisplayed p2)) in Hf.
    congruence. }
  etrans; [apply (IH progress)|].
  etrans; [|symmetry; apply (IH None)]. by rewrite Heq.
Qed.

(** The progress configuration changes neither what the mapper settles with
    nor what it does to the shared store. *)
Lemma nAtATime_progress progress sched (s : St) :
  nAtATime L inputs use progress sched s
  = nAtATime L inputs use (@None (@ProgressConfig T O)) sched s.
Proof.
  unfold nAtATime.
  pose proof (drive_undisplayed progress (fuel_bound inputs) sched
                (init L inputs s)) as Hd.
  pose proof (drive_undisplayed None (fuel_bound inputs) sched
                (init L inputs s)) as Hn.
  rewrite <- Hn in Hd. clear Hn.
  set (q1 := drive inputs use progress _ _ _) in *.
  set (q2 := drive inputs use None _ _ _) in *.
  assert (failure q1 = failure q2) as -> by apply (f_equal failure Hd).
  assert (results q1 = results q2) as -> by apply (f_equal results Hd).
  assert (shared q1 = shared q2) as -> by apply (f_equal shared Hd).
  done.
Qed.

End Display.

(** X13. The options handed to registry generation only reach the progress
    display: with any two options the generation settles alike and leaves
    the same world. *)
Theorem generateRegistry_options_irrelevant {Err Options : Type}
    (env : Env Err Options) typings (o1 o2 : Options) w :
  generateRegistry env typings o1 w = generateRegistry env typings o2 w.
Proof.
  unfold generateRegistry.
  by rewrite (nAtATime_progress 25 typings (addEntry env)
                (Some (registryProgress o1))),
             (nAtATime_progress 25 typings (addEntry env)
                (Some (registryProgress o2))).
Qed.

(** ** Rejections of the mapper *)

Section Issued.
Context {T U E St O : Type}.
Variable L : nat.
Variable inputs : list T.
Variable use : @transform T U E St.
Variable progress : option (@ProgressConfig T O).

(** The rejection the mapper settles with is that of a transform it has
    invoked. *)
Lemma failure_issued s (p : @pool U E St) e :
  reachable L inputs use progress s p → failure p = Some e →
  ∃ i x s0, i < nextIndex p ∧ inputs !! i = Some x ∧
            (settle use x s0).1 = Rejected e.
Proof.
  unfold reachable. intros Hr. revert e. revert p Hr.
  apply (rtc_ind_r (λ p : @pool U E St, ∀ e, failure p = Some e →
    ∃ i x s0, i < nextIndex p ∧ inputs !! i = Some x ∧
              (settle use x s0).1 = Rejected e)); [done|].
  intros p q Hpq [w Hw] IH e Hf.
  pose proof (inv_reachable L inputs use progress s p Hpq) as Hinv.
  unfold fire in Hw.
  destruct (workers p !! w) as [[|i| |e0]|] eqn:Hwk; try done.
  - destruct (inputs !! nextIndex p) as [x|]; simplify_eq/=.
    + destruct (IH e Hf) as (i & y & s0 & ? & ? & ?).
      exists i, y, s0. split_and!; [lia|done..].
    + by apply IH.
  - destruct (inputs !! i) as [x|] eqn:Hx; [|done].
    destruct (settle use x (shared p)) as [[u|e1] s'] eqn:Hs; simplify_eq/=.
    + by apply IH.
    + destruct (failure p) as [e2|] eqn:Hfp; simplify_eq.
      * by apply IH.
      * exists i, x, (shared p). split_and!; [|done|by rewrite Hs].
        by apply (inv_claimed _ _ _ _ Hinv w).
Qed.

End Issued.

(** ** Runs of [main], further *)

(** How registry generation settles, with what is known of the lookups:
    either a lookup that was issued has rejected, or every lookup has
    succeeded and the index lists the typings. *)
Lemma generateRegistry_outcomes {Err Options : Type} (env : Env Err Options)
    typings options w :
  (∃ e n t,
     generateRegistry env typings options w
     = (Rejected e,
        {| trace := trace w ++ lookup_events env (take n typings);
           logged := logged w |}) ∧
     t ∈ take n typings ∧
     fetched env (getVersions_uri env (fullEscapedNpmName t)) = Rejected e) ∨
  (∃ reg,
     generateRegistry env typings options w
     = (Resolved reg,
        {| trace := trace w ++ lookup_events env typings;
           logged := logged w |}) ∧
     (∀ t, t ∈ typings → ∃ info, looked_up env t info) ∧
     (∀ k, is_Some (entries reg !! k) ↔
           k ≠ "__proto__" ∧ ∃ t, t ∈ typings ∧ name t = k)).
Proof.
  destruct (generateRegistry_cases env typings options w)
    as [(e & n & Hc)|(reg & Hc)].
  - left. rewrite generateRegistry_final in Hc.
    destruct (final_pool_inv env typings options w) as [_ [Htr Hlg _ _ _]].
    destruct (failure (final_pool env typings options w)) as [e'|] eqn:Hf;
      [|done].
    destruct (failure_issued 25 typings (addEntry env)
                (Some (registryProgress options)) (w, ∅)
                (final_pool env typings options w) e')
      as (i & t & s0 & Hi & Ht & Hrej); [apply drive_steps|done|].
    exists e', (nextIndex (final_pool env typings options w)), t.
    split_and!.
    + rewrite generateRegistry_final, Hf. f_equal.
      destruct (shared (final_pool env typings options w)).1 as [tr lg].
      cbn [trace logged] in Htr, Hlg. by subst.
    + apply list_elem_of_lookup. exists i. by rewrite lookup_take_lt.
    + rewrite addEntry_settle in Hrej. unfold getVersions_settle in Hrej.
      by destruct (fetched env _); simplify_eq.
  - right. exists reg. split; [done|].
    split; [by eapply generateRegistry_resolved_lookups|].
    by destruct (generateRegistry_resolved_sound env _ _ _ _ _ Hc).
Qed.

(** Symbolic execution of a run, keeping what is known of the lookups. *)
Ltac settle_calls_full env :=
  repeat (
    cbn -[generateRegistry generatePackageJson lookup_events output_writes];
    match goal with
    | |- context [generateRegistry env ?t ?o ?w] =>
        let H := fresh "Hreg" in
        let Hissued := fresh "Hissued" in
        let Hfailed := fresh "Hfailed" in
        let Hok := fresh "Hok" in
        let Hdom := fresh "Hdom" in
        pose proof (generateRegistry_outcomes env t o w) as H;
        destruct H as [(? & ? & ? & H & Hissued & Hfailed)|(? & H & Hok & Hdom)];
        rewrite H
    | |- context [match ?x with _ => _ end] =>
        lazymatch x with
        | context [match _ with _ => _ end] => fail
        | context [generateRegistry] => fail
        | _ => destruct x eqn:?
        end
    end);
  repeat match goal with u : unit |- _ => destruct u end.

Ltac run_full env := autounfold with run_db; settle_calls_full env.

(** Show an event to be in a trace. *)
Ltac in_trace :=
  repeat (rewrite elem_of_cons || rewrite elem_of_app);
  unfold lookup_events; rewrite ?list_elem_of_fmap; eauto 20.

Ltac rewrite_rejected :=
  simpl;
  repeat match goal with
         | H : ?x = Rejected _ |- context [?x] => rewrite H
         end;
  done.

(** Find in a trace the call whose rejection the run rejects with. *)
Ltac try_events env l :=
  lazymatch l with
  | ?a :: ?l' =>
      first [ solve [exists a; split; [in_trace | rewrite_rejected]]
            | try_events env l' ]
  | ?l1 ++ ?l2 => first [ try_events env l2 | try_events env l1 ]
  | lookup_events env (take ?n ?ts) =>
      match goal with
      | Hi : ?t ∈ take n ts, Hf : fetched env _ = Rejected _ |- _ =>
          solve [exists (FetchJson (getVersions_uri env (fullEscapedNpmName t))
                           true);
                 split; [in_trace | simpl; by rewrite Hf]]
      end
  end.

Section MainMore.
Context {Err Options : Type}.
Variable env : Env Err Options.

Lemma generateRegistry_resolved_lists typings options w reg w' :
  generateRegistry env typings options w = (Resolved reg, w') →
  lists env typings reg.
Proof.
  intros Hrun.
  destruct (generateRegistry_resolved_sound env _ _ _ _ _ Hrun)
    as (Hdom & Hsound & Hown).
  split_and!; [done| |].
  - intros k v Hk. destruct (Hsound k v Hk) as (t & info & ? & ? & ? & ->).
    exists t, info. split_and!; try done. intros tag. apply lookup_pick.
  - intros Hnd t info Ht Hp Hinfo. eexists. split; [by apply Hown|].
    intros tag. apply lookup_pick.
Qed.

(** X14. When [generate] resolves it has made exactly the calls of a whole
    generation, in order: the output path cleared, [package.json] written
    with the manifest it was given, every typing looked up, [index.json]
    written with an index that lists the typings, [README.md] written with
    the readme; and it has logged what [clearOutputPath] logged, no more. *)
Theorem generate_resolved typings pj options w w' :
  generate env typings pj options w = (Resolved (), w') →
  ∃ reg,
    lists env typings reg ∧
    trace w' = trace w ++ generation_events env typings pj reg ∧
    logged w' = logged w ++ (cleared env (registryOutputPath env)).1.
Proof.
  run_full env; intros [=]; subst.
  eexists. split; [by eapply generateRegistry_resolved_lists|].
  split; [|done]. cbn. unfold generation_events.
  by rewrite <- !app_assoc.
Qed.

(** X15. [generate] is not all-or-nothing: when the output path is cleared
    and [package.json] written, a lookup that fails makes [generate]
    reject with the rejection of a lookup it issued, after [package.json]
    has been written and before anything is written to [index.json] or
    [README.md]. *)
Theorem generate_failed_lookup typings pj options w t e :
  (cleared env (registryOutputPath env)).2 = Resolved () →
  written env (joinPaths env (registryOutputPath env) "package.json")
    (Manifest pj) = Resolved () →
  t ∈ typings →
  fetched env (getVersions_uri env (fullEscapedNpmName t)) = Rejected e →
  ∃ e' n t',
    generate env typings pj options w
    = (Rejected e',
       {| trace := trace w
            ++ [ClearOutputPath (registryOutputPath env);
                WriteJson (joinPaths env (registryOutputPath env) "package.json")
                  (Manifest pj)]
            ++ lookup_events env (take n typings);
          logged := logged w ++ (cleared env (registryOutputPath env)).1 |}) ∧
    t' ∈ take n typings ∧
    fetched env (getVersions_uri env (fullEscapedNpmName t')) = Rejected e'.
Proof.
  intros Hcl Hpkg Ht Hrej. revert Hcl Hpkg.
  run_full env; intros Hcl Hpkg; simplify_eq.
  all: try (destruct (Hok t Ht) as [info Hinfo]; unfold looked_up in Hinfo;
            congruence).
  eexists _, _, _. split; [|by eauto]. cbn. by rewrite <- !app_assoc.
Qed.

(** X16. Whatever happens in a run, the calls that touch the output
    directory are a prefix of: clear the output path, write
    [package.json], write [index.json], write [README.md]. Nothing else is
    cleared or written, nothing is written twice or out of order, and every
    path is under the output path of the registry. *)
Theorem main_output_writes_prefix (dry : bool) :
  ∃ last reg,
    output_writes (trace (main env dry start).2)
    `prefix_of`
    [ClearOutputPath (registryOutputPath env);
     WriteJson (joinPaths env (registryOutputPath env) "package.json")
       (Manifest (generatePackageJson env (number_add last 1)));
     WriteJson (joinPaths env (registryOutputPath env) "index.json")
       (Index reg);
     WriteJson (joinPaths env (registryOutputPath env) "README.md")
       (Text readme)].
Proof.
  run env.
  all: repeat (rewrite ?output_writes_cons, ?output_writes_app,
                 ?output_writes_lookup_events;
               cbn [is_output_write trace snd app]).
  all: change (output_writes []) with (@nil event); cbn [app].
  all: match goal with
       | a : Z, x : Registry |- _ => exists a, x
       | a : Z |- _ => exists a, {| entries := ∅ |}
       | |- _ => exists 0%Z, {| entries := ∅ |}
       end.
  all: repeat first [apply prefix_nil | apply prefix_cons].
Qed.

(** X17. No rejection is swallowed and none is made up: when a run
    resolves, every call it made resolved; when it rejects, it rejects with
    the rejection of a call it made. *)
Theorem main_rejections (dry : bool) :
  (∀ u, (main env dry start).1 = Resolved u →
        ∀ ev, ev ∈ trace (main env dry start).2 → rejection env ev = None) ∧
  (∀ e, (main env dry start).1 = Rejected e →
        ∃ ev, ev ∈ trace (main env dry start).2 ∧ rejection env ev = Some e).
Proof.
  split.
  - run_full env; intros u Hres ev Hin; cbn in Hres, Hin; simplify_eq;
      member Hin; simpl.
    all: try match goal with
             | Hok : ∀ t, t ∈ _ → ∃ info, looked_up env t info,
               Hx : ?x ∈ _ |- _ =>
                 destruct (Hok x Hx) as [? Hl]; unfold looked_up in Hl;
                 rewrite Hl
             end.
    all: repeat match goal with
                | H : ?x = Resolved _ |- context [?x] => rewrite H
                end.
    all: done.
  - run_full env; intros err Hrej; cbn in Hrej; simplify_eq.
    all: cbn [trace snd].
    all: match goal with |- ∃ ev, ev ∈ ?l ∧ _ => try_events env l end.
Qed.

(** [generateAndPublishRegistry] only adds to what is logged. *)
Lemma generateAndPublishRegistry_logged options (dry : bool) w :
  ∃ more,
    logged (generateAndPublishRegistry env options dry w).2 = logged w ++ more.
Proof.
  run env; first [by exists []; rewrite app_nil_r | by eexists].
Qed.

(** X18. The run log is written at most once, to [publish-registry.md], as
    the last call of the run, with all the messages logged in the run, the
    first of which is the title line. *)
Theorem main_log_last (dry : bool) file lines :
  WriteLog file lines ∈ trace (main env dry start).2 →
  file = "publish-registry.md" ∧
  lines = logged (main env dry start).2 ∧
  (∃ rest, lines = "=== Publishing types-registry ===" :: rest) ∧
  ∃ pre, trace (main env dry start).2 = pre ++ [WriteLog file lines] ∧
         ∀ f l, WriteLog f l ∉ pre.
Proof.
  destruct (additions env) as [added|e] eqn:Hadd.
  2: { revert Hadd. run env; intros Hadd Hin; simplify_eq; cbn in Hin;
       member Hin. }
  destruct (decide (length added = 0)) as [Hlen|Hlen].
  { destruct added; [|done].
    destruct (empty_run env dry Hadd) as [lines' Hrun].
    revert Hrun. run env; intros Hrun Hin; simplify_eq; cbn in Hin;
      member Hin.
    split_and!; try done; [by eexists|].
    exists [ReadAdditions]. split; [done|].
    intros f l Hin. member Hin. }
  rewrite (main_with_additions env dry added Hadd Hlen).
  pose proof (generateAndPublishRegistry_calls env (Options_defaults env) dry
                (announced env added)) as Hcalls.
  destruct (generateAndPublishRegistry_logged (Options_defaults env) dry
              (announced env added)) as [more Hmore].
  destruct (generateAndPublishRegistry _ _ _ _) as [[[]|e] w'];
    cbn [snd trace logged emit] in *; intros Hin.
  - apply elem_of_app in Hin as [Hin|Hin].
    { destruct (Hcalls _ Hin) as [Hold|Hnot].
      - cbn in Hold. member Hold.
      - by destruct (Hnot file lines). }
    apply elem_of_cons in Hin as [Hin|Hin]; [|by apply elem_of_nil in Hin].
    simplify_eq.
    split_and!; try done.
    + rewrite Hmore. by eexists.
    + exists (trace w'). split; [done|]. intros f l Hin.
      destruct (Hcalls _ Hin) as [Hold|Hnot].
      * cbn in Hold. member Hold.
      * by destruct (Hnot f l).
  - destruct (Hcalls _ Hin) as [Hold|Hnot].
    + cbn in Hold. member Hold.
    + by destruct (Hnot file lines).
Qed.

(** X19. Every run starts by reading the additions, and reads them once;
    the typings are read exactly when additions were read and there are
    some; and a patch number is only ever fetched for [types-registry],
    after the typings were read. *)
Theorem main_reads (dry : bool) :
  (∃ rest, trace (main env dry start).2 = ReadAdditions :: rest ∧
           ReadAdditions ∉ rest) ∧
  (ReadTypings ∈ trace (main env dry start).2 ↔
   ∃ added, additions env = Resolved added ∧ length added ≠ 0) ∧
  (∀ pkg, FetchLastPatchNumber pkg ∈ trace (main env dry start).2 →
          pkg = "types-registry" ∧
          ∃ typings, typings_read env = Resolved typings).
Proof.
  split_and!.
  - run env; cbn; (eexists; split; [reflexivity|]); intros Hin; member Hin.
  - run env; cbn; (split; [intros Hin; member Hin
                          |intros (added & Hadd & Hlen); simplify_eq]).
    all: try (eexists; split; [reflexivity|]).
    all: try match goal with
             | H : negb (length ?a =? 0) = true |- length ?a ≠ 0 =>
                 apply negb_true_iff, Nat.eqb_neq in H; exact H
             | H : negb (length ?a =? 0) = false, H' : length ?a ≠ 0 |- _ =>
                 apply negb_false_iff, Nat.eqb_eq in H; done
             end.
    all: in_trace.
  - run env; intros pkg Hin; cbn in Hin; member Hin; eauto.
Qed.

End MainMore.

(** ** The further properties at sample runs *)

Lemma two_typings_same_key : same_name_same_key two_typings.
Proof.
  intros t t' Ht Ht' Hn.
  repeat (apply elem_of_cons in Ht as [->|Ht]);
    repeat (apply elem_of_cons in Ht' as [->|Ht']);
    try (by apply elem_of_nil in Ht); try (by apply elem_of_nil in Ht');
    done.
Qed.

Lemma resolved_registry_lists_typings_witness :
  ∃ reg w',
    generateRegistry (two_env ["b"] [1; 0]) two_typings () start
    = (Resolved reg, w') ∧
    lists (two_env ["b"] [1; 0]) two_typings reg ∧
    trace w' = trace start ++ lookup_events (two_env ["b"] [1; 0]) two_typings.
Proof.
  destruct (generateRegistry (two_env ["b"] [1; 0]) two_typings () start)
    as [[reg|e] w'] eqn:Hrun.
  - exists reg, w'. split; [reflexivity|].
    destruct (resolved_registry_lists_typings _ _ _ _ _ _ Hrun) as (_ & Hl & Ht & _).
    by split.
  - vm_compute in Hrun. discriminate Hrun.
Defined.

Lemma generateRegistry_same_key_witness :
  ∃ reg w',
    generateRegistry (two_env ["b"] [1; 0]) two_typings () start
    = (Resolved reg, w') ∧
    same_name_same_key two_typings ∧
    "b" ≠ "__proto__" ∧
    entries reg !! "b" = Some {[ "latest" := "2.0.0" ]}.
Proof.
  destruct (generateRegistry (two_env ["b"] [1; 0]) two_typings () start)
    as [[reg|e] w'] eqn:Hrun.
  - assert (Hp : "b" ≠ "__proto__") by done.
    exists reg, w'. split; [reflexivity|]. split; [apply two_typings_same_key|].
    split; [exact Hp|].
    assert (Hin : {| name := "b"; fullEscapedNpmName := "b__types" |}
                  ∈ two_typings) by repeat constructor.
    pose proof (generateRegistry_same_key (two_env ["b"] [1; 0]) _ _ _ _ _
                  {| name := "b"; fullEscapedNpmName := "b__types" |} _
                  Hrun two_typings_same_key Hin Hp eq_refl) as Hb.
    cbn [name] in Hb. rewrite Hb. by vm_compute.
  - vm_compute in Hrun. discriminate Hrun.
Defined.

Lemma generateRegistry_no_known_tag_witness :
  ∃ reg w',
    generateRegistry bare_env bare_typings () start = (Resolved reg, w') ∧
    (∀ t' info tag,
       t' ∈ bare_typings → name t' = "c" → looked_up bare_env t' info →
       tag ∈ allVersionTags bare_env → dist_tags info !! tag = None) ∧
    entries reg !! "c" = Some ∅.
Proof.
  assert (Hnone : ∀ t' info tag,
            t' ∈ bare_typings → name t' = "c" → looked_up bare_env t' info →
            tag ∈ allVersionTags bare_env → dist_tags info !! tag = None).
  { intros t' info tag _ _ Hinfo _. unfold looked_up in Hinfo.
    cbn in Hinfo. unfold bare_lookup in Hinfo. by simplify_eq. }
  assert (Hp : "c" ≠ "__proto__") by done.
  destruct (generateRegistry bare_env bare_typings () start)
    as [[reg|e] w'] eqn:Hrun.
  - exists reg, w'. split; [reflexivity|]. split; [exact Hnone|].
    assert (Hin : {| name := "c"; fullEscapedNpmName := "c" |} ∈ bare_typings)
      by repeat constructor.
    exact (generateRegistry_no_known_tag bare_env _ _ _ _ _
             {| name := "c"; fullEscapedNpmName := "c" |}
             Hrun Hin Hp Hnone).
  - vm_compute in Hrun. discriminate Hrun.
Defined.

Lemma pick_pick_witness :
  ({[ "latest" := "1.0.0"; "beta" := "2.0.0" ]} : gmap string string)
    !! "__proto__" = None ∧
  pick (pick ({[ "latest" := "1.0.0"; "beta" := "2.0.0" ]} : gmap string string)
          ["latest"; "beta"]) ["latest"]
  = pick ({[ "latest" := "1.0.0"; "beta" := "2.0.0" ]} : gmap string string)
      (filter (.∈ ["latest"]) ["latest"; "beta"]).
Proof.
  assert (H : ({[ "latest" := "1.0.0"; "beta" := "2.0.0" ]}
               : gmap string string) !! "__proto__" = None) by by vm_compute.
  split; [exact H|].
  exact (proj1 (pick_pick _ ["latest"; "beta"] ["latest"] H)).
Defined.

Lemma generatePackageJson_version_inj_witness :
  (Z.abs 41 ≤ 2 ^ 53)%Z ∧ (Z.abs 42 ≤ 2 ^ 53)%Z ∧
  version (generatePackageJson (two_env ["b"] [1; 0]) 41)
  ≠ version (generatePackageJson (two_env ["b"] [1; 0]) 42).
Proof.
  assert (H1 : (Z.abs 41 ≤ 2 ^ 53)%Z) by lia.
  assert (H2 : (Z.abs 42 ≤ 2 ^ 53)%Z) by lia.
  split; [exact H1|]. split; [exact H2|]. intros Hv.
  by pose proof (proj1 (proj1 (generatePackageJson_version_inj
                                 (two_env ["b"] [1; 0]) 41 42 H1 H2)) Hv).
Defined.

Lemma generateRegistry_schedule_irrelevant_witness :
  ∃ reg w1' w2',
    generateRegistry (two_env ["b"] [1; 0]) two_typings () start
    = (Resolved reg, w1') ∧
    generateRegistry (two_env [] [0; 0; 1]) two_typings ()
      (announced (two_env [] [0; 0; 1]) ["b"])
    = (Resolved reg, w2').
Proof.
  destruct (generateRegistry (two_env ["b"] [1; 0]) two_typings () start)
    as [[reg|e] w1'] eqn:Hrun.
  - destruct (generateRegistry_schedule_irrelevant
                (two_env ["b"] [1; 0]) (two_env [] [0; 0; 1]) two_typings
                () () start (announced (two_env [] [0; 0; 1]) ["b"]) reg w1'
                eq_refl eq_refl (λ _, eq_refl) two_typings_same_key Hrun)
      as [w2' Hrun2].
    exists reg, w1', w2'. exact (conj eq_refl Hrun2).
  - vm_compute in Hrun. discriminate Hrun.
Defined.

Lemma generate_resolved_witness :
  ∃ w' reg,
    generate (two_env ["b"] [1; 0]) two_typings (generatePackageJson (two_env ["b"] [1; 0]) 42) ()
      start = (Resolved (), w') ∧
    trace w' = trace start
               ++ generation_events (two_env ["b"] [1; 0]) two_typings
                    (generatePackageJson (two_env ["b"] [1; 0]) 42) reg.
Proof.
  destruct (generate (two_env ["b"] [1; 0]) two_typings
              (generatePackageJson (two_env ["b"] [1; 0]) 42) () start) as [[[]|e] w'] eqn:Hrun.
  - destruct (generate_resolved _ _ _ _ _ _ Hrun) as (reg & _ & Ht & _).
    exists w', reg. exact (conj eq_refl Ht).
  - vm_compute in Hrun. discriminate Hrun.
Defined.

Lemma generate_failed_lookup_witness :
  (cleared (failing_env []) (registryOutputPath (failing_env []))).2
  = Resolved () ∧
  fetched (failing_env [])
    (getVersions_uri (failing_env []) "b__types") = Rejected "ETIMEDOUT" ∧
  ∃ e' w',
    generate (failing_env []) two_typings (generatePackageJson (failing_env []) 42) () start
    = (Rejected e', w') ∧
    ∀ c, WriteJson (joinPaths (failing_env [])
                      (registryOutputPath (failing_env [])) "index.json") c
         ∉ trace w'.
Proof.
  split; [reflexivity|]. split; [reflexivity|].
  assert (Hin : {| name := "b"; fullEscapedNpmName := "b__types" |}
                ∈ two_typings) by repeat constructor.
  destruct (generate_failed_lookup (failing_env []) two_typings
              (generatePackageJson (failing_env []) 42) () start
              {| name := "b"; fullEscapedNpmName := "b__types" |} "ETIMEDOUT"
              eq_refl eq_refl Hin eq_refl)
    as (e' & n & t' & Hrun & _ & _).
  eexists _, _. split; [exact Hrun|].
  intros c Hc. cbn [trace] in Hc.
  repeat first
    [ apply elem_of_nil in Hc; destruct Hc
    | apply elem_of_cons in Hc as [Hc|Hc]
    | apply elem_of_app in Hc as [Hc|Hc]
    | apply list_elem_of_fmap in Hc as (? & Hc & _) ];
    discriminate Hc.
Defined.

Lemma main_log_last_witness :
  WriteLog "publish-registry.md"
    ["=== Publishing types-registry ===";
     "No new packages published, so no need to publish new registry."]
    ∈ trace (main (two_env [] []) false start).2 ∧
  ∃ pre, trace (main (two_env [] []) false start).2
         = pre ++ [WriteLog "publish-registry.md"
                     ["=== Publishing types-registry ===";
                      "No new packages published, so no need to publish new registry."]].
Proof.
  assert (Hin : WriteLog "publish-registry.md"
    ["=== Publishing types-registry ===";
     "No new packages published, so no need to publish new registry."]
    ∈ trace (main (two_env [] []) false start).2).
  { vm_compute. repeat constructor. }
  split; [exact Hin|].
  destruct (main_log_last (two_env [] []) false _ _ Hin)
    as (_ & _ & _ & pre & Hpre & _).
  by exists pre.
Defined.

Lemma main_rejections_witness :
  ∃ ev, ev ∈ trace (main (failing_env []) false start).2 ∧
        rejection (failing_env []) ev = Some "ETIMEDOUT".
Proof.
  apply (proj2 (main_rejections (failing_env []) false)). by vm_compute.
Defined.
